(** * mini-groupcache: a shallow embedding and its verified properties

    The development follows the packages of the repository:
    - [lru]            (lru/lru.go): the byte-bounded LRU store;
    - [consistenthash] (consistenthash/consistenthash.go): the hash ring;
    - [singleflight]   (singleflight/singleflight.go): request deduplication;
    - [groupcache]     (byteview.go, cache.go, groupcache.go, peers.go).

    Conventions.  Go's [int] and [int64] are 64-bit two's complement
    integers; they are carried as [Z], and the one accumulator the code
    updates arithmetically ([Cache.nbytes]) is wrapped explicitly.  A Go
    [string] is a byte string and is carried as [string]; a [[]byte] is a
    [list byte].  A Go result pair [(T, error)] is a pair whose second
    component is [None] for a nil error. *)

From Stdlib Require Import ZArith Lia Ascii String.
From Stdlib.Strings Require Import Byte.
From stdpp Require Import base option list strings gmap sorting.

Open Scope Z_scope.

(** Go's [error] values are compared by identity and printed by message; the
    message is all the model keeps. *)
Definition error : Type := string.

(** Two's complement wrap-around of a 64-bit signed integer. *)
Definition wrap64 (z : Z) : Z := (z + 2 ^ 63) `mod` 2 ^ 64 - 2 ^ 63.

(** [len(s)] of a Go string. *)
Definition len (s : string) : Z := Z.of_nat (String.length s).

(** ** Package lru *)

(** [type Value interface { Len() int }] *)
Class Value (V : Type) := Len : V → Z.

Module lru.
Section Cache.
Context {V : Type} `{!Value V}.

(** [type entry struct { key string; value Value }] *)
Record entry := Entry { key : string; value : V }.

(** [type Cache struct].  [ll] is the doubly linked list, front first.
    The Go map [cache] sends a key to the list element that carries the
    entry of that key; an element is represented by the entry it carries,
    so the list and the map are two views of the same entries and an
    assignment through [kv] is written to both.  [OnEvicted] records
    whether a hook is installed, and [evicted] is the sequence of calls
    the hook has received, oldest first. *)
Record Cache := mkCache {
  maxBytes : Z;
  nbytes : Z;
  ll : list entry;
  cache : gmap string entry;
  OnEvicted : bool;
  evicted : list (string * V)
}.

(** [func NewCache(maxBytes int64, onEvicted func(string, Value)) *Cache] *)
Definition NewCache (maxBytes : Z) (onEvicted : bool) : Cache :=
  {| maxBytes := maxBytes; nbytes := 0; ll := []; cache := ∅;
     OnEvicted := onEvicted; evicted := [] |}.

(** [list.Remove(ele)]: unlink the element of the entry with key [k]. *)
Fixpoint Remove (k : string) (l : list entry) : list entry :=
  match l with
  | [] => []
  | e :: l' => if decide (key e = k) then l' else e :: Remove k l'
  end.

(** [list.MoveToFront(ele)] for the element [ele] carrying [kv]. *)
Definition MoveToFront (kv : entry) (l : list entry) : list entry :=
  kv :: Remove (key kv) l.

(** [list.PushFront(v)] *)
Definition PushFront (kv : entry) (l : list entry) : list entry := kv :: l.

(** [list.Back()]: the last element, [None] for Go's nil. *)
Definition Back (l : list entry) : option entry := last l.

(** [func (c *Cache) RemoveOldest()] *)
Definition RemoveOldest (c : Cache) : Cache :=
  match Back (ll c) with
  | None => c
  | Some kv =>
      {| maxBytes := maxBytes c;
         nbytes := wrap64 (nbytes c - (len (key kv) + Len (value kv)));
         ll := removelast (ll c);
         cache := delete (key kv) (cache c);
         OnEvicted := OnEvicted c;
         evicted := if OnEvicted c
                    then evicted c ++ [(key kv, value kv)]
                    else evicted c |}
  end.

(** [func (c *Cache) Add(key string, value Value)]: the two branches of
    the map test, then the capacity test, which is an [if]. *)
Definition Add (k : string) (v : V) (c : Cache) : Cache :=
  let c1 :=
    match cache c !! k with
    | Some kv =>
        (* [kv.value = value] is seen through the list and the map *)
        let kv' := Entry (key kv) v in
        {| maxBytes := maxBytes c;
           nbytes := wrap64 (nbytes c + (Len v - Len (value kv)));
           ll := <[0%nat := kv']> (MoveToFront kv (ll c));
           cache := <[k := kv']> (cache c);
           OnEvicted := OnEvicted c;
           evicted := evicted c |}
    | None =>
        let ele := Entry k v in
        {| maxBytes := maxBytes c;
           nbytes := wrap64 (nbytes c + (len k + Len v));
           ll := PushFront ele (ll c);
           cache := <[k := ele]> (cache c);
           OnEvicted := OnEvicted c;
           evicted := evicted c |}
    end in
  if decide (maxBytes c1 ≠ 0 ∧ nbytes c1 > maxBytes c1)
  then RemoveOldest c1
  else c1.

(** [func (c *Cache) Get(key string) (value Value, ok bool)]; the zero
    [Value] of a miss is [None]. *)
Definition Get (k : string) (c : Cache) : option V * Cache :=
  match cache c !! k with
  | Some kv =>
      (Some (value kv),
       {| maxBytes := maxBytes c; nbytes := nbytes c;
          ll := MoveToFront kv (ll c);
          cache := cache c;
          OnEvicted := OnEvicted c; evicted := evicted c |})
  | None => (None, c)
  end.

(** [func (c *Cache) Len() int] *)
Definition Len_ (c : Cache) : Z := Z.of_nat (length (ll c)).

(** The byte total the accounting is meant to track. *)
Definition size_of (e : entry) : Z := len (key e) + Len (value e).
Definition total (l : list entry) : Z := foldr (λ e acc, size_of e + acc) 0 l.

(** The consistency of the two views: the keys of the list are pairwise
    different, and the map is the index of the list. *)
Definition wf (c : Cache) : Prop :=
  NoDup (key <$> ll c)
  ∧ ∀ k e, cache c !! k = Some e ↔ e ∈ ll c ∧ key e = k.

(** The counter is the byte total of the entries, within [int64]. *)
Definition accounted (c : Cache) : Prop :=
  nbytes c = total (ll c) ∧ total (ll c) < 2 ^ 63.

(** The store of [Add] at its capacity test: the entry of the key, with
    the new value, at the front of the list and in the map. *)
Definition inserted (k : string) (v : V) (c : Cache) : Cache :=
  {| maxBytes := maxBytes c;
     nbytes := wrap64 (nbytes c
                       + match cache c !! k with
                         | Some kv => Len v - Len (value kv)
                         | None => len k + Len v
                         end);
     ll := Entry k v :: Remove k (ll c);
     cache := <[k := Entry k v]> (cache c);
     OnEvicted := OnEvicted c;
     evicted := evicted c |}.

(** A client of the package: the calls it makes on one [Cache], in order. *)
Inductive call :=
| CallAdd (k : string) (v : V)
| CallGet (k : string)
| CallRemoveOldest.

Definition apply (c : Cache) (op : call) : Cache :=
  match op with
  | CallAdd k v => Add k v c
  | CallGet k => (Get k c).2
  | CallRemoveOldest => RemoveOldest c
  end.

Definition after (ops : list call) (c : Cache) : Cache := foldl apply c ops.

(** The bytes that the [Add] calls of a client bring in. *)
Definition added (ops : list call) : Z :=
  foldr (λ op acc, match op with
                   | CallAdd k v => len k + Len v + acc
                   | _ => acc
                   end) 0 ops.

(** What a plain map from keys to values holds after the same calls. *)
Definition store (m : gmap string V) (op : call) : gmap string V :=
  match op with
  | CallAdd k v => <[k := v]> m
  | _ => m
  end.

Definition stored (ops : list call) : gmap string V := foldl store ∅ ops.

(** What relates an unbounded cache to the plain map of the same calls. *)
Definition tracks (c : Cache) (m : gmap string V) : Prop :=
  wf c ∧ maxBytes c = 0 ∧ evicted c = []
  ∧ ∀ k, value <$> cache c !! k = m !! k.

End Cache.
Arguments entry V : clear implicits.
Arguments Cache V : clear implicits.
Arguments call V : clear implicits.
End lru.

(** [type String string] of lru_test.go *)
#[global] Instance String_Value : Value string := len.


(** ** Package consistenthash *)

Module crc32.
(** [hash/crc32.ChecksumIEEE], bit by bit: reflected polynomial
    [0xEDB88320], initial value and final complement [0xFFFFFFFF]. *)
Definition poly : Z := 0xEDB88320.

Definition shift1 (crc : Z) : Z :=
  if Z.testbit crc 0 then Z.lxor (Z.shiftr crc 1) poly else Z.shiftr crc 1.

Definition update_byte (crc : Z) (b : ascii) : Z :=
  Nat.iter 8 shift1 (Z.lxor crc (Z.of_N (N_of_ascii b))).

Definition ChecksumIEEE (data : string) : Z :=
  Z.lxor (foldl update_byte 0xFFFFFFFF (list_ascii_of_string data)) 0xFFFFFFFF.
End crc32.

Module sort.
(** [sort.Search(n, f)]: the loop [for i < j] of the Go library, with
    [h := int(uint(i+j) >> 1)]; [i + j] stays below [2^64] for slice
    lengths, so the shift is the exact half.  The interval [j - i]
    shrinks at every turn, so [n] turns are enough fuel. *)
Fixpoint search_loop (fuel : nat) (f : Z → bool) (i j : Z) : Z :=
  match fuel with
  | O => i
  | S fuel' =>
      if decide (i < j) then
        let h := Z.shiftr (i + j) 1 in
        if negb (f h) then search_loop fuel' f (h + 1) j
        else search_loop fuel' f i h
      else i
  end.

Definition Search (n : Z) (f : Z → bool) : Z :=
  search_loop (Z.to_nat n) f 0 n.

(** [a[i]] for an index the caller keeps in range. *)
Definition index (a : list Z) (i : Z) : Z := default 0 (a !! Z.to_nat i).

(** [sort.SearchInts(a, x)] *)
Definition SearchInts (a : list Z) (x : Z) : Z :=
  Search (Z.of_nat (length a)) (λ i, bool_decide (index a i >= x)).

(** [sort.Ints(a)]: the increasing rearrangement of [a]. *)
Definition Ints (a : list Z) : list Z := merge_sort Z.le a.
End sort.

Module strconv.
Definition digit (d : Z) : ascii := ascii_of_N (48 + Z.to_N d).

Fixpoint digits (fuel : nat) (n : Z) (acc : string) : string :=
  match fuel with
  | O => acc
  | S fuel' =>
      let acc' := String (digit (n `mod` 10)) acc in
      if decide (n `div` 10 = 0) then acc' else digits fuel' (n `div` 10) acc'
  end.

(** [strconv.Itoa(i)]: decimal, with a sign for negative numbers.  A
    number has no more decimal than binary digits. *)
Definition Itoa (i : Z) : string :=
  if decide (i < 0)
  then String "-" (digits (S (Z.to_nat (Z.log2 (- i)))) (- i) "")
  else digits (S (Z.to_nat (Z.log2 i))) i "".
End strconv.

Module consistenthash.
(** [type Hash func(data []byte) uint32]: the value as an integer. *)
Definition Hash : Type := string → Z.

(** [type Map struct] *)
Record Map := mkMap {
  hash : Hash;
  replicas : Z;
  keys : list Z;
  hashMap : gmap Z string
}.

(** [func New(replicas int, fn Hash) *Map]; [None] is a nil [fn]. *)
Definition New (replicas : Z) (fn : option Hash) : Map :=
  {| hash := default crc32.ChecksumIEEE fn;
     replicas := replicas;
     keys := [];
     hashMap := ∅ |}.

(** One turn of the inner loop of [Add]. *)
Definition add_replica (key : string) (m : Map) (i : Z) : Map :=
  let k := strconv.Itoa i +:+ key in
  let h := hash m k in
  {| hash := hash m; replicas := replicas m;
     keys := keys m ++ [h];
     hashMap := <[h := key]> (hashMap m) |}.

(** The inner loop [for i := 0; i < m.replicas; i++]. *)
Definition add_node (m : Map) (key : string) : Map :=
  foldl (add_replica key) m (seqZ 0 (replicas m)).

(** [func (m *Map) Add(keys ...string)] *)
Definition Add (ks : list string) (m : Map) : Map :=
  let m' := foldl add_node m ks in
  {| hash := hash m'; replicas := replicas m';
     keys := sort.Ints (keys m');
     hashMap := hashMap m' |}.

(** [func (m *Map) IsEmpty() bool] *)
Definition IsEmpty (m : Map) : bool := bool_decide (length (keys m) = 0%nat).

(** [func (m *Map) Get(key string) string]; a Go map read of an absent
    key gives the zero string. *)
Definition Get (key : string) (m : Map) : string :=
  if IsEmpty m then ""
  else
    let h := hash m key in
    let n := Z.of_nat (length (keys m)) in
    let idx := sort.Search n (λ i, bool_decide (sort.index (keys m) i >= h)) in
    let idx := if decide (idx = n) then 0 else idx in
    default "" (hashMap m !! sort.index (keys m) idx).

(** [Remove] either runs to its end or stops in a run-time panic of a
    slice expression; both carry the state of the ring at that point. *)
Inductive outcome :=
| Done (m : Map)
| PanicSliceBounds (m : Map).

(** One turn of the loop of [Remove].  [m.keys[idx+1:]] panics when
    [idx + 1 > len(m.keys)]; otherwise the [append] closes the gap left by
    position [idx]. *)
Definition remove_replica (key : string) (m : Map) (i : Z) : outcome :=
  let k := strconv.Itoa i +:+ key in
  let h := hash m k in
  let idx := sort.SearchInts (keys m) h in
  if decide (idx + 1 > Z.of_nat (length (keys m))) then PanicSliceBounds m
  else
    Done {| hash := hash m; replicas := replicas m;
            keys := take (Z.to_nat idx) (keys m)
                      ++ drop (Z.to_nat (idx + 1)) (keys m);
            hashMap := delete h (hashMap m) |}.

Fixpoint remove_loop (key : string) (m : Map) (ixs : list Z) : outcome :=
  match ixs with
  | [] => Done m
  | i :: ixs' =>
      match remove_replica key m i with
      | Done m' => remove_loop key m' ixs'
      | PanicSliceBounds m' => PanicSliceBounds m'
      end
  end.

(** [func (m *Map) Remove(key string)] *)
Definition Remove (key : string) (m : Map) : outcome :=
  match remove_loop key m (seqZ 0 (replicas m)) with
  | Done m' =>
      Done {| hash := hash m'; replicas := replicas m';
              keys := sort.Ints (keys m');
              hashMap := hashMap m' |}
  | PanicSliceBounds m' => PanicSliceBounds m'
  end.

(** The states a ring goes through: a fresh ring, then [Add] and [Remove],
    the latter also where it stops in a panic that the caller recovers
    from. *)
Inductive ring : Map → Prop :=
| ring_New replicas fn : ring (New replicas fn)
| ring_Add ks m : ring m → ring (Add ks m)
| ring_Remove key m m' : ring m → Remove key m = Done m' → ring m'
| ring_Remove_panic key m m' :
    ring m → Remove key m = PanicSliceBounds m' → ring m'.



(** A ring built by a sequence of [Add] calls, one list of nodes each. *)
Definition build (replicas : Z) (fn : option Hash) (calls : list (list string)) : Map :=
  foldl (λ m ks, Add ks m) (New replicas fn) calls.

(** The virtual points of a node: ring position and owner, in the order
    [Add] makes them. *)
Definition points (h : Hash) (replicas : Z) (node : string) : list (Z * string) :=
  (λ i, (h (strconv.Itoa i +:+ node), node)) <$> seqZ 0 replicas.

(** Writing virtual points into the map one after the other, as the
    assignments [m.hashMap[hash] = key] do. *)
Definition record_points (hm : gmap Z string) (ps : list (Z * string)) : gmap Z string :=
  foldl (λ hm p, <[p.1 := p.2]> hm) hm ps.

(** No two different nodes of [nodes] share a ring position. *)
Definition collision_free (h : Hash) (replicas : Z) (nodes : list string) : Prop :=
  ∀ n1 n2 i1 i2,
    n1 ∈ nodes → n2 ∈ nodes →
    0 ≤ i1 < replicas → 0 ≤ i2 < replicas →
    h (strconv.Itoa i1 +:+ n1) = h (strconv.Itoa i2 +:+ n2) → n1 = n2.

(** None of the virtual points of [node] is a position of the ring. *)
Definition absent (node : string) (m : Map) : Prop :=
  ∀ i, 0 ≤ i < replicas m → hash m (strconv.Itoa i +:+ node) ∉ keys m.

(** A hash for tests that reads its input as a decimal number, as the
    rings of the usual examples do ("16" is position 16). *)
Definition decimal : Hash :=
  λ data, foldl (λ acc c, 10 * acc + (Z.of_N (N_of_ascii c) - 48)) 0
            (list_ascii_of_string data).
End consistenthash.

(** ** Package singleflight, run by one goroutine *)

Module singleflight.
Section Do.
Context {A W : Type}.

(** [type call struct { wg sync.WaitGroup; val any; err error }]: the
    counter of the wait group, and [None] for a nil [val]. *)
Record call := mkCall { wg : Z; val : option A; err : option error }.

(** [type Group struct { mu sync.Mutex; m map[string]*call }]; [None] is
    the nil map of a fresh [Group]. *)
Record Group := mkGroup { m : option (gmap string call) }.

(** What a call of [Do] comes to when no other goroutine runs: it returns,
    or it is parked in [c.wg.Wait()] on a call that nobody will finish. *)
Inductive outcome (R : Type) :=
| Returns (r : R)
| Waits.

(** [func (g *Group) Do(key string, fn func() (any, error)) (any, error)].
    [fn] acts on the state [W] of its caller, which the coordinator never
    reads. *)
Definition Do (key : string) (fn : W → (A * option error) * W)
    (g : Group) (w : W) : outcome (A * option error) * Group * W :=
  let m0 := default ∅ (m g) in
  match m0 !! key with
  | Some c => (Waits _, mkGroup (Some m0), w)
  | None =>
      (* c := new(call); c.wg.Add(1); g.m[key] = c *)
      let c := mkCall 1 None None in
      let m1 := <[key := c]> m0 in
      (* c.val, c.err = fn(); c.wg.Done() *)
      let '(r, w') := fn w in
      (* delete(g.m, key); return c.val, c.err *)
      let m2 := delete key m1 in
      (Returns _ r, mkGroup (Some m2), w')
  end.

(** No call is in flight. *)
Definition idle (g : Group) : Prop := default ∅ (m g) = ∅.
End Do.
Arguments call A : clear implicits.
Arguments Group A : clear implicits.
Arguments Returns {R} r.
Arguments Waits {R}.
End singleflight.

(** ** Package singleflight, run by many goroutines

    The calls of [Do] of any number of goroutines, interleaved one
    statement at a time.  The shared state is the [Group] (its mutex and its
    map), the [call] objects the map points to, and the state [W] that the
    functions [fn] act on.  A [*call] is an address in [calls]; [new(call)]
    takes the next one. *)

Module interleaving.
Section Do.
Context {A W : Type}.

(** Where a goroutine stands in [Do], with its local variable [c]. *)
Inductive pc :=
| Enter                    (* before the first [g.mu.Lock()] *)
| Locked                   (* holds [g.mu]; before [if c, ok := g.m[key]; ok] *)
| Found (c : nat)          (* the key is in the map; before [g.mu.Unlock()] *)
| Waiting (c : nat)        (* in [c.wg.Wait()] *)
| Woken (c : nat)          (* before [return c.val, c.err] of a waiter *)
| Missing                  (* the key is not in the map; before [c := new(call)] *)
| Registered (c : nat)     (* [g.m[key] = c] done; before [g.mu.Unlock()] *)
| Calling (c : nat)        (* before [c.val, c.err = fn()] *)
| Called (c : nat)         (* before [c.wg.Done()] *)
| Signalled (c : nat)      (* before the second [g.mu.Lock()] *)
| Deleting (c : nat)       (* holds [g.mu]; before [delete(g.m, key)] *)
| Deleted (c : nat)        (* before the second [g.mu.Unlock()] *)
| Leaving (c : nat)        (* before [return c.val, c.err] of the owner *)
| Finished (c : nat) (r : option A * option error).

(** A goroutine in [Do(key, fn)]. *)
Record goroutine := mkGoroutine {
  key : string;
  fn : W → (A * option error) * W;
  at_ : pc
}.

(** The state of the whole.  [made] and [runs] are histories that the code
    does not keep: who made each call object and for which key, and every
    execution of a function [fn] with the goroutine that ran it, the call
    it ran it for, and its result. *)
Record system := mkSystem {
  mu : option nat;
  m : option (gmap string nat);
  calls : list (singleflight.call A);
  goroutines : list goroutine;
  world : W;
  made : list (nat * string);
  runs : list (nat * nat * (A * option error))
}.

(** Goroutine [t] goes to [p]. *)
Definition move (t : nat) (g : goroutine) (p : pc) (σ : system) : system :=
  {| mu := mu σ; m := m σ; calls := calls σ;
     goroutines := <[t := mkGoroutine (key g) (fn g) p]> (goroutines σ);
     world := world σ; made := made σ; runs := runs σ |}.

Definition set_mu (o : option nat) (σ : system) : system :=
  {| mu := o; m := m σ; calls := calls σ; goroutines := goroutines σ;
     world := world σ; made := made σ; runs := runs σ |}.

Definition set_m (m' : gmap string nat) (σ : system) : system :=
  {| mu := mu σ; m := Some m'; calls := calls σ; goroutines := goroutines σ;
     world := world σ; made := made σ; runs := runs σ |}.

Definition set_call (c : nat) (cl : singleflight.call A) (σ : system) : system :=
  {| mu := mu σ; m := m σ; calls := <[c := cl]> (calls σ);
     goroutines := goroutines σ;
     world := world σ; made := made σ; runs := runs σ |}.

(** [c := new(call); c.wg.Add(1)] by goroutine [t] for [k]. *)
Definition new_call (t : nat) (k : string) (σ : system) : system :=
  {| mu := mu σ; m := m σ;
     calls := calls σ ++ [singleflight.mkCall 1 None None];
     goroutines := goroutines σ;
     world := world σ; made := made σ ++ [(t, k)]; runs := runs σ |}.

(** [fn()] run by goroutine [t] for the call [c]. *)
Definition ran (t c : nat) (r : A * option error) (w : W) (σ : system) : system :=
  {| mu := mu σ; m := m σ; calls := calls σ; goroutines := goroutines σ;
     world := w; made := made σ; runs := runs σ ++ [(t, c, r)] |}.

(** One statement of goroutine [t]; [None] when [t] cannot move: it is
    blocked on the mutex or in [Wait], or it has returned. *)
Definition step (t : nat) (σ : system) : option system :=
  g ← goroutines σ !! t;
  let m0 := default ∅ (m σ) in
  match at_ g with
  | Enter =>
      match mu σ with
      | None => Some (move t g Locked (set_mu (Some t) σ))
      | Some _ => None
      end
  | Locked =>
      (* [if g.m == nil { g.m = make(map[string]*call) }] and the test *)
      Some (move t g match m0 !! key g with
                     | Some c => Found c
                     | None => Missing
                     end (set_m m0 σ))
  | Found c => Some (move t g (Waiting c) (set_mu None σ))
  | Waiting c =>
      cl ← calls σ !! c;
      if decide (singleflight.wg cl = 0) then Some (move t g (Woken c) σ) else None
  | Woken c =>
      cl ← calls σ !! c;
      Some (move t g (Finished c (singleflight.val cl, singleflight.err cl)) σ)
  | Missing =>
      let c := length (calls σ) in
      Some (move t g (Registered c)
              (set_m (<[key g := c]> m0) (new_call t (key g) σ)))
  | Registered c => Some (move t g (Calling c) (set_mu None σ))
  | Calling c =>
      cl ← calls σ !! c;
      let '(r, w') := fn g (world σ) in
      Some (move t g (Called c)
              (set_call c (singleflight.mkCall (singleflight.wg cl) (Some r.1) r.2)
                 (ran t c r w' σ)))
  | Called c =>
      cl ← calls σ !! c;
      Some (move t g (Signalled c)
              (set_call c (singleflight.mkCall (singleflight.wg cl - 1)
                             (singleflight.val cl) (singleflight.err cl)) σ))
  | Signalled c =>
      match mu σ with
      | None => Some (move t g (Deleting c) (set_mu (Some t) σ))
      | Some _ => None
      end
  | Deleting c => Some (move t g (Deleted c) (set_m (delete (key g) m0) σ))
  | Deleted c => Some (move t g (Leaving c) (set_mu None σ))
  | Leaving c =>
      cl ← calls σ !! c;
      Some (move t g (Finished c (singleflight.val cl, singleflight.err cl)) σ)
  | Finished _ _ => None
  end.

(** Some goroutine makes a step. *)
Definition steps_to (σ σ' : system) : Prop := ∃ t, step t σ = Some σ'.

(** The callers at the entry of [Do], on a fresh [Group]. *)
Definition start (callers : list (string * (W → (A * option error) * W))) (w : W)
    : system :=
  {| mu := None; m := None; calls := [];
     goroutines := (λ kf, mkGoroutine kf.1 kf.2 Enter) <$> callers;
     world := w; made := []; runs := [] |}.

Definition reachable (callers : list (string * (W → (A * option error) * W)))
    (w : W) (σ : system) : Prop :=
  rtc steps_to (start callers w) σ.

(** The system after the goroutines of a schedule made one step each, in
    that order; [None] when one of them could not move. *)
Fixpoint run (schedule : list nat) (σ : system) : option system :=
  match schedule with
  | [] => Some σ
  | t :: schedule' => σ' ← step t σ; run schedule' σ'
  end.

(** The call that a goroutine has in the map: from [g.m[key] = c] to
    [delete(g.m, key)]. *)
Definition in_flight (p : pc) : option nat :=
  match p with
  | Registered c | Calling c | Called c | Signalled c | Deleting c => Some c
  | _ => None
  end.

(** The executions of [fn] for the call [c]. *)
Definition runs_of (c : nat) (σ : system) : list (nat * nat * (A * option error)) :=
  filter (λ x, x.1.2 = c) (runs σ).

(** *** The invariant *)

(** The call [c] was made by [t] for [k]. *)
Definition own (σ : system) (t : nat) (k : string) (c : nat) : Prop :=
  made σ !! c = Some (t, k).

(** The call [c] was made for [k]. *)
Definition attached (σ : system) (k : string) (c : nat) : Prop :=
  ∃ t0, made σ !! c = Some (t0, k).

(** [fn] has not run for [c]. *)
Definition fresh (σ : system) (c : nat) : Prop :=
  calls σ !! c = Some (singleflight.mkCall 1 None None).

(** [fn] has run for [c] and the waiters have not been released. *)
Definition filled (σ : system) (c : nat) : Prop :=
  ∃ v e, calls σ !! c = Some (singleflight.mkCall 1 (Some v) e).

(** [fn] has run for [c] and the waiters are released. *)
Definition released (σ : system) (c : nat) : Prop :=
  ∃ v e, calls σ !! c = Some (singleflight.mkCall 0 (Some v) e).

(** What holds of goroutine [t] at each point of [Do]. *)
Definition local_inv (σ : system) (t : nat) (g : goroutine) : Prop :=
  let m0 := default ∅ (m σ) in
  match at_ g with
  | Enter => True
  | Locked => mu σ = Some t
  | Found c => mu σ = Some t ∧ attached σ (key g) c
  | Waiting c => attached σ (key g) c
  | Woken c => attached σ (key g) c ∧ released σ c
  | Missing => mu σ = Some t ∧ m0 !! key g = None
  | Registered c =>
      mu σ = Some t ∧ own σ t (key g) c ∧ fresh σ c ∧ m0 !! key g = Some c
  | Calling c => own σ t (key g) c ∧ fresh σ c ∧ m0 !! key g = Some c
  | Called c => own σ t (key g) c ∧ filled σ c ∧ m0 !! key g = Some c
  | Signalled c => own σ t (key g) c ∧ released σ c ∧ m0 !! key g = Some c
  | Deleting c =>
      mu σ = Some t ∧ own σ t (key g) c ∧ released σ c ∧ m0 !! key g = Some c
  | Deleted c => mu σ = Some t ∧ own σ t (key g) c ∧ released σ c
  | Leaving c => own σ t (key g) c ∧ released σ c
  | Finished c r =>
      attached σ (key g) c
      ∧ ∃ v e, calls σ !! c = Some (singleflight.mkCall 0 (Some v) e)
               ∧ r = (Some v, e)
  end.

(** The points of [Do] that the goroutine that made [c] passes through. *)
Definition owner_at (p : pc) (c : nat) : Prop :=
  match p with
  | Registered c' | Calling c' | Called c' | Signalled c' | Deleting c'
  | Deleted c' | Leaving c' | Finished c' _ => c' = c
  | _ => False
  end.

(** The points of [Do] between [g.mu.Lock()] and [g.mu.Unlock()]. *)
Definition holds_lock (p : pc) : Prop :=
  match p with
  | Locked | Found _ | Missing | Registered _ | Deleting _ | Deleted _ => True
  | _ => False
  end.

(** The statements a goroutine has left to run, at most. *)
Definition rank (p : pc) : nat :=
  match p with
  | Enter => 10
  | Locked => 9
  | Missing => 8
  | Registered _ => 7
  | Calling _ => 6
  | Called _ => 5
  | Signalled _ => 4
  | Deleting _ => 3
  | Deleted _ => 2
  | Leaving _ => 1
  | Found _ => 3
  | Waiting _ => 2
  | Woken _ => 1
  | Finished _ _ => 0
  end.

Definition remaining (σ : system) : nat :=
  sum_list (rank ∘ at_ <$> goroutines σ).

(** The goroutine has returned. *)
Definition finished (p : pc) : Prop :=
  match p with
  | Finished _ _ => True
  | _ => False
  end.

#[global] Instance finished_dec (p : pc) : Decision (finished p).
Proof. destruct p; simpl; apply _. Defined.

(** Every goroutine has returned. *)
Definition all_finished (σ : system) : Prop :=
  Forall (λ g, finished (at_ g)) (goroutines σ).

Record inv (σ : system) : Prop := mkInv {
  inv_local : ∀ t g, goroutines σ !! t = Some g → local_inv σ t g;
  inv_mu : ∀ t, mu σ = Some t →
             ∃ g, goroutines σ !! t = Some g ∧ holds_lock (at_ g);
  inv_made : length (made σ) = length (calls σ);
  inv_map : ∀ k c, default ∅ (m σ) !! k = Some c → attached σ k c;
  inv_owner : ∀ c t0 k, made σ !! c = Some (t0, k) →
                ∃ g0, goroutines σ !! t0 = Some g0 ∧ key g0 = k ∧ owner_at (at_ g0) c;
  inv_runs : ∀ c cl, calls σ !! c = Some cl →
               match singleflight.val cl with
               | None => runs_of c σ = []
               | Some v => ∃ t0 k, made σ !! c = Some (t0, k)
                                   ∧ runs_of c σ = [(t0, c, (v, singleflight.err cl))]
               end;
  inv_runs_made : ∀ x, x ∈ runs σ → ∃ k, made σ !! x.1.2 = Some (x.1.1, k)
}.
End Do.

(** Three callers of [Do("Tom", fn)], where [fn] gives the number of times
    it has run before, and the schedule in which the first caller takes the
    call, the other two arrive while it is in flight, and all return. *)
Definition counting : nat → (nat * option error) * nat :=
  λ n, ((n, None), S n).

Definition three_callers : list (string * (nat → (nat * option error) * nat)) :=
  [("Tom", counting); ("Tom", counting); ("Tom", counting)].

Definition one_flight : list nat :=
  [0; 0; 0; 0; 1; 1; 1; 2; 2; 2; 0; 0; 0; 0; 0; 0; 1; 1; 2; 2]%nat.

Arguments pc A : clear implicits.
Arguments goroutine A W : clear implicits.
Arguments system A W : clear implicits.
End interleaving.

(** ** Package mini_groupcache *)

Module groupcache.

(** *** byteview.go *)

(** [type ByteView struct { b []byte }] *)
Record ByteView := mkByteView { b : list byte }.

#[global] Instance ByteView_Value : Value ByteView :=
  λ v, Z.of_nat (length (b v)).

(** [make([]byte, n)] and the built-in [copy(dst, src)], which writes
    [min(len(dst), len(src))] bytes and gives the new [dst]. *)
Definition make (n : nat) : list byte := replicate n x00.
Definition copy (dst src : list byte) : list byte :=
  take (length dst) src ++ drop (length src) dst.

(** [func cloneBytes(b []byte) []byte] *)
Definition cloneBytes (b : list byte) : list byte :=
  let c := make (length b) in
  copy c b.

(** [func (v ByteView) ByteSlice() []byte] *)
Definition ByteSlice (v : ByteView) : list byte := cloneBytes (b v).

(** [func (v ByteView) String() string] *)
Definition String_ (v : ByteView) : string := string_of_list_byte (b v).

(** *** cache.go: the store behind its lock, run by one goroutine *)

(** [type cache struct { mu sync.Mutex; lru *lru.Cache; cacheBytes int64 }] *)
Record cache := mkcache {
  lru_ : option (lru.Cache ByteView);
  cacheBytes : Z
}.

(** [func (c *cache) add(key string, value ByteView)] *)
Definition add (key : string) (value : ByteView) (c : cache) : cache :=
  let l := match lru_ c with
           | None => lru.NewCache (cacheBytes c) false
           | Some l => l
           end in
  {| lru_ := Some (lru.Add key value l); cacheBytes := cacheBytes c |}.

(** [func (c *cache) get(key string) (value ByteView, ok bool)] *)
Definition get (key : string) (c : cache) : (ByteView * bool) * cache :=
  match lru_ c with
  | None => ((mkByteView [], false), c)
  | Some l =>
      match lru.Get key l with
      | (None, l') => ((mkByteView [], false),
                       {| lru_ := Some l'; cacheBytes := cacheBytes c |})
      | (Some v, l') => ((v, true),
                         {| lru_ := Some l'; cacheBytes := cacheBytes c |})
      end
  end.

(** [func (c *cache) removeOldest()] *)
Definition removeOldest (c : cache) : cache :=
  match lru_ c with
  | None => c
  | Some l => {| lru_ := Some (lru.RemoveOldest l); cacheBytes := cacheBytes c |}
  end.

(** What the store holds: the value under each key, without the order. *)
Definition contents (c : cache) : gmap string ByteView :=
  match lru_ c with
  | None => ∅
  | Some l => lru.value <$> lru.cache l
  end.

(** *** testpb: the two messages exchanged with a peer *)
Record Request := mkRequest { Group_ : string; Key : string }.
Record Response := mkResponse { Value_ : list byte }.

Section Group.
(** The capabilities act on a state [E] of their own: the data source,
    the network, the peers.  The core never inspects it. *)
Context {E : Type}.

(** *** groupcache.go *)

(** [type Getter interface { Get(key string) ([]byte, error) }] *)
Definition Getter : Type := string → E → (list byte * option error) * E.

(** *** peers.go *)

(** [type PeerGetter interface { Get(in *Request, out *Response) error }]:
    the call gives the new contents of [out] and the error. *)
Definition PeerGetter : Type :=
  Request → Response → E → (Response * option error) * E.

(** [type PeerPicker interface { PickPeer(key string) (PeerGetter, bool) }]:
    [Some peer] for [(peer, true)]. *)
Definition PeerPicker : Type := string → E → option PeerGetter * E.

(** [type Group struct] *)
Record Group := mkGroup {
  name : string;
  getter : Getter;
  mainCache : cache;
  peers : option PeerPicker;
  loader : singleflight.Group ByteView
}.

(** The calls a [Get] makes to its capabilities, with what they answered. *)
Inductive event :=
| EvOrigin (key : string) (bytes : list byte) (err : option error)
| EvPickPeer (key : string) (ok : bool)
| EvPeerGet (req : Request) (out : Response) (err : option error).

(** The state a call of [Get] runs in: the group, the state of the
    capabilities, and the calls made to them so far. *)
Record St := mkSt { grp : Group; env : E; trace : list event }.

Definition set_mainCache (c : cache) (g : Group) : Group :=
  {| name := name g; getter := getter g; mainCache := c;
     peers := peers g; loader := loader g |}.

Definition set_loader (l : singleflight.Group ByteView) (g : Group) : Group :=
  {| name := name g; getter := getter g; mainCache := mainCache g;
     peers := peers g; loader := l |}.

(** [func (g *Group) populateCate(key string, value ByteView)] *)
Definition populateCate (key : string) (value : ByteView) (s : St) : St :=
  {| grp := set_mainCache (add key value (mainCache (grp s))) (grp s);
     env := env s; trace := trace s |}.

(** [func (g *Group) getLocally(key string) (ByteView, error)] *)
Definition getLocally (key : string) (s : St) : (ByteView * option error) * St :=
  let '((bytes, err), e') := getter (grp s) key (env s) in
  let s' := {| grp := grp s; env := e';
               trace := trace s ++ [EvOrigin key bytes err] |} in
  match err with
  | Some e => ((mkByteView [], Some e), s')
  | None =>
      let value := mkByteView (cloneBytes bytes) in
      ((value, None), populateCate key value s')
  end.

(** [func (g *Group) getFromPeer(peer PeerGetter, key string) (ByteView, error)] *)
Definition getFromPeer (peer : PeerGetter) (key : string) (s : St)
    : (ByteView * option error) * St :=
  let in_ := {| Group_ := name (grp s); Key := key |} in
  let res := {| Value_ := [] |} in
  let '((res', err), e') := peer in_ res (env s) in
  let s' := {| grp := grp s; env := e';
               trace := trace s ++ [EvPeerGet in_ res' err] |} in
  match err with
  | Some e => ((mkByteView [], Some e), s')
  | None => ((mkByteView (Value_ res'), None), s')
  end.

(** The function literal that [load] hands to [Do].  It closes over the
    named results [value] and [err] of [load], which the peer attempt
    assigns; they travel with the state. *)
Definition load_fn (key : string) (w : (ByteView * option error) * St)
    : (ByteView * option error) * ((ByteView * option error) * St) :=
  let '(vars, s) := w in
  match peers (grp s) with
  | Some pick =>
      let '(peer, e') := pick key (env s) in
      let s1 := {| grp := grp s; env := e';
                   trace := trace s ++ [EvPickPeer key (bool_decide (is_Some peer))] |} in
      match peer with
      | Some peer =>
          let '((value, err), s2) := getFromPeer peer key s1 in
          match err with
          | None => ((value, None), ((value, err), s2))
          | Some _ =>
              let '(r, s3) := getLocally key s2 in
              (r, ((value, err), s3))
          end
      | None =>
          let '(r, s2) := getLocally key s1 in
          (r, (vars, s2))
      end
  | None =>
      let '(r, s1) := getLocally key s in
      (r, (vars, s1))
  end.

(** [func (g *Group) load(key string) (value ByteView, err error)] *)
Definition load (key : string) (s : St)
    : singleflight.outcome (ByteView * option error) * St :=
  let vars := (mkByteView [], None) in
  let '(o, l', (vars', s')) :=
    singleflight.Do key (load_fn key) (loader (grp s)) (vars, s) in
  let s'' := {| grp := set_loader l' (grp s'); env := env s'; trace := trace s' |} in
  match o with
  | singleflight.Waits => (singleflight.Waits, s'')
  | singleflight.Returns (view, err) =>
      match err with
      | Some e => (singleflight.Returns (vars'.1, Some e), s'')
      | None => (singleflight.Returns (view, None), s'')
      end
  end.

(** [func (g *Group) Get(key string) (ByteView, error)] *)
Definition Get (key : string) (s : St)
    : singleflight.outcome (ByteView * option error) * St :=
  if decide (key = "") then
    (singleflight.Returns (mkByteView [], Some "key is required"), s)
  else
    let '((v, ok), c') := get key (mainCache (grp s)) in
    let s' := {| grp := set_mainCache c' (grp s); env := env s; trace := trace s |} in
    if ok then (singleflight.Returns (v, None), s')
    else load key s'.

(** [func (g *Group) RegisterPeers(peers PeerPicker)]; [None] is the
    panic of a second registration. *)
Definition RegisterPeers (p : PeerPicker) (g : Group) : option Group :=
  match peers g with
  | Some _ => None
  | None => Some {| name := name g; getter := getter g; mainCache := mainCache g;
                    peers := Some p; loader := loader g |}
  end.

(** *** The registry of groups *)

(** [var groups = make(map[string]*Group)] with the groups it points to:
    a [*Group] is an address in [heap], and [NewGroup] allocates the next
    one. *)
Record Registry := mkRegistry {
  groups : gmap string nat;
  heap : list Group
}.

(** [func NewGroup(name string, cacheBytes int64, getter Getter) *Group];
    [None] for a nil [getter] and for the panic it raises. *)
Definition NewGroup (name : string) (cacheBytes : Z) (getter : option Getter)
    (r : Registry) : option (nat * Registry) :=
  match getter with
  | None => None
  | Some getter =>
      let g := {| name := name; getter := getter;
                  mainCache := {| lru_ := None; cacheBytes := cacheBytes |};
                  peers := None;
                  loader := singleflight.mkGroup None |} in
      let p := length (heap r) in
      Some (p, {| groups := <[name := p]> (groups r); heap := heap r ++ [g] |})
  end.

(** [func GetGroup(name string) *Group]; [None] is the nil pointer. *)
Definition GetGroup (name : string) (r : Registry) : option nat :=
  groups r !! name.

(** The registry of a process that has made no group yet. *)
Definition no_groups : Registry := {| groups := ∅; heap := [] |}.

(** A run of calls of [NewGroup], each with a getter that is not nil. *)
Definition NewGroups (calls : list (string * Z * Getter)) (r : Registry) : Registry :=
  foldl (λ r c, match NewGroup c.1.1 c.1.2 (Some c.2) r with
                | Some (_, r') => r'
                | None => r
                end) r calls.

(** Every registered pointer is an address of the heap. *)
Definition allocated (r : Registry) : Prop :=
  ∀ n p, groups r !! n = Some p → (p < length (heap r))%nat.

End Group.
Arguments Group E : clear implicits.
Arguments St E : clear implicits.
Arguments Registry E : clear implicits.
Arguments no_groups E : clear implicits.
Arguments Getter E : clear implicits.
Arguments PeerGetter E : clear implicits.
Arguments PeerPicker E : clear implicits.
End groupcache.

(** ** The group of the tests

    The group "scores" of groupcache_test.go over a one-entry data source,
    with the state of the capabilities counting the calls made to them, and
    two peers: one that answers and one that fails. *)

Module scores.
Import groupcache.

Definition db : Getter nat :=
  λ key n,
    if decide (key = "Tom") then ((list_byte_of_string "630", None), S n)
    else (([], Some (key +:+ " is not exist")), S n).

Definition serving_peer : PeerGetter nat :=
  λ _ _ n, ((mkResponse (list_byte_of_string "630"), None), S n).

Definition failing_peer : PeerGetter nat :=
  λ _ out n, ((out, Some "server returned: 500 Internal Server Error"), S n).

Definition always (peer : PeerGetter nat) : PeerPicker nat :=
  λ _ n, (Some peer, S n).

Definition group (peers : option (PeerPicker nat)) : Group nat :=
  {| name := "scores"; getter := db;
     mainCache := {| lru_ := None; cacheBytes := 2048 |};
     peers := peers;
     loader := singleflight.mkGroup None |}.

Definition start (peers : option (PeerPicker nat)) : St nat :=
  {| grp := group peers; env := 0%nat; trace := [] |}.
End scores.

(** * Properties *)

(** ** The LRU store *)

(** C7: with a capacity of 20 bytes, adding ("key1","value1"),
    ("key2","value2") and ("k3","v3") in that order evicts key1: a lookup of
    "key1" finds nothing and two entries are left, whether or not an
    eviction hook is installed. *)
Theorem lru_scenario_key1_evicted (hook : bool) :
  let c := lru.Add "k3" "v3"
             (lru.Add "key2" "value2"
                (lru.Add "key1" "value1" (lru.NewCache 20 hook))) in
  (lru.Get "key1" c).1 = None ∧ lru.Len_ c = 2.
Proof. destruct hook; vm_compute; done. Qed.

(** C1, at the input where the code leaves the bound: capacity 5, then
    ("a","1"), ("b","2") and ("c","123456789").  The third [Add] raises the
    total to 14, evicts "a" once and stops at 12 bytes with two entries. *)
Theorem lru_Add_evicts_once_only :
  let c := lru.Add "c" "123456789"
             (lru.Add "b" "2" (lru.Add "a" "1" (lru.NewCache 5 false))) in
  lru.maxBytes c = 5 ∧ lru.nbytes c = 12 ∧ lru.Len_ c = 2 ∧
  ¬ (lru.nbytes c <= lru.maxBytes c ∨ lru.ll c = []).
Proof. vm_compute. split_and!; try done. intros [H | H]; [by apply H | done]. Qed.

(** *** The list, the map and the byte counter *)

Section lru_facts.
Context {V : Type} `{!Value V}.
Implicit Types (c : lru.Cache V) (l : list (lru.entry V)) (e : lru.entry V)
  (k : string) (v : V).

Lemma wrap64_fits z : - 2 ^ 63 ≤ z < 2 ^ 63 → wrap64 z = z.
Proof. intros Hz. unfold wrap64. rewrite Z.mod_small; lia. Qed.

Lemma Remove_absent k l : k ∉ lru.key <$> l → lru.Remove k l = l.
Proof.
  induction l as [|e l IH]; [done|]. rewrite ?fmap_cons, not_elem_of_cons.
  intros [Hne Hk]; simpl. rewrite decide_False by done. by rewrite IH.
Qed.

Lemma elem_of_Remove k l e :
  NoDup (lru.key <$> l) → e ∈ lru.Remove k l ↔ e ∈ l ∧ lru.key e ≠ k.
Proof.
  induction l as [|e' l IH]; simpl.
  { intros _. rewrite elem_of_nil. tauto. }
  rewrite NoDup_cons. intros [Hnotin Hnd]. case_decide as Hk.
  - split.
    + intros He. split; [by right|]. intros Hke. apply Hnotin.
      rewrite Hk, <-Hke. by apply list_elem_of_fmap_2.
    + intros [[->|He]%elem_of_cons Hne]; [done|done].
  - rewrite !elem_of_cons, IH by done. split.
    + intros [->|[? ?]]; [split; [by left|done]|split; [by right|done]].
    + intros [[->|?] ?]; [by left|by right].
Qed.

Lemma Remove_keys_subset k l x :
  x ∈ lru.key <$> lru.Remove k l → x ∈ lru.key <$> l.
Proof.
  induction l as [|e l IH]; simpl; [done|]. case_decide.
  - intros ?. rewrite ?fmap_cons. by right.
  - rewrite ?fmap_cons, !elem_of_cons. intros [?|?]; [by left|right; by apply IH].
Qed.

Lemma NoDup_Remove k l :
  NoDup (lru.key <$> l) → NoDup (lru.key <$> lru.Remove k l).
Proof.
  induction l as [|e l IH]; simpl; [done|].
  rewrite ?fmap_cons, NoDup_cons. intros [Hnotin Hnd]. case_decide; [done|].
  rewrite ?fmap_cons, NoDup_cons. split; [|by apply IH].
  intros ?%Remove_keys_subset. done.
Qed.

Lemma Remove_key_gone k l :
  NoDup (lru.key <$> l) → k ∉ lru.key <$> lru.Remove k l.
Proof.
  intros Hnd (e & Hk & [_ Hne]%elem_of_Remove)%list_elem_of_fmap; done.
Qed.

Lemma total_cons e l : lru.total (e :: l) = lru.size_of e + lru.total l.
Proof. done. Qed.

Lemma total_app l1 l2 : lru.total (l1 ++ l2) = lru.total l1 + lru.total l2.
Proof.
  induction l1 as [|e l1 IH]; [done|].
  rewrite <-app_comm_cons, !total_cons, IH. lia.
Qed.

Lemma total_Remove k l e :
  e ∈ l → lru.key e = k → NoDup (lru.key <$> l) →
  lru.total l = lru.size_of e + lru.total (lru.Remove k l).
Proof.
  intros He Hk. induction l as [|e' l IH]; [by apply elem_of_nil in He|].
  rewrite ?fmap_cons, NoDup_cons. intros [Hnotin Hnd]. simpl.
  apply elem_of_cons in He as [<-|He].
  - by rewrite decide_True.
  - rewrite decide_False.
    + rewrite !total_cons, IH by done. lia.
    + intros Hk'. apply Hnotin. rewrite Hk', <-Hk. by apply list_elem_of_fmap_2.
Qed.
Lemma NoDup_key_inj l e1 e2 :
  NoDup (lru.key <$> l) → e1 ∈ l → e2 ∈ l → lru.key e1 = lru.key e2 → e1 = e2.
Proof.
  induction l as [|e l IH]; [by intros _ ?%elem_of_nil|].
  rewrite ?fmap_cons, NoDup_cons, !elem_of_cons.
  intros [Hnotin Hnd] [->|H1] [->|H2] Hk; [done| | |by apply IH].
  - destruct Hnotin. rewrite Hk. by apply list_elem_of_fmap_2.
  - destruct Hnotin. rewrite <-Hk. by apply list_elem_of_fmap_2.
Qed.

Lemma wf_NewCache maxBytes hook : lru.wf (lru.NewCache (V:=V) maxBytes hook).
Proof.
  split; simpl; [constructor|]. intros k e. rewrite lookup_empty, elem_of_nil.
  split; [done|tauto].
Qed.

(** What [RemoveOldest] does to a store whose list ends in [e]. *)
Lemma RemoveOldest_last c l e :
  lru.ll c = l ++ [e] →
  lru.RemoveOldest c
  = lru.mkCache (lru.maxBytes c)
      (wrap64 (lru.nbytes c - (len (lru.key e) + Len (lru.value e))))
      l (delete (lru.key e) (lru.cache c)) (lru.OnEvicted c)
      (if lru.OnEvicted c then lru.evicted c ++ [(lru.key e, lru.value e)]
       else lru.evicted c).
Proof.
  intros Hl. unfold lru.RemoveOldest, lru.Back.
  rewrite Hl, last_snoc. by rewrite removelast_last.
Qed.

Lemma RemoveOldest_empty c : lru.ll c = [] → lru.RemoveOldest c = c.
Proof. intros Hl. unfold lru.RemoveOldest, lru.Back. by rewrite Hl. Qed.

Lemma wf_RemoveOldest c : lru.wf c → lru.wf (lru.RemoveOldest c).
Proof.
  intros [Hnd Hidx].
  destruct (last (lru.ll c)) as [e|] eqn:Hlast.
  - apply last_Some in Hlast as [l Hl]. rewrite (RemoveOldest_last c l e Hl).
    rewrite Hl, fmap_app, NoDup_app in Hnd. destruct Hnd as (Hndl & Hdisj & _).
    split; simpl; [done|]. intros k e'. rewrite lookup_delete_Some, Hidx, Hl.
    rewrite elem_of_app, list_elem_of_singleton. split.
    + intros (Hne & [?| ->] & Hk); [done|congruence].
    + intros [He' Hk]. split_and!; [|by left|done].
      intros Hke. apply (Hdisj (lru.key e')); [by apply list_elem_of_fmap_2|].
      rewrite Hk, <-Hke. simpl. by left.
  - apply last_None in Hlast. by rewrite RemoveOldest_empty.
Qed.

(** [Get] of a key that the store holds: its value, and the entry at the
    front of the list. *)
Lemma Get_hit c k e :
  lru.wf c → e ∈ lru.ll c → lru.key e = k →
  lru.Get k c
  = (Some (lru.value e),
     lru.mkCache (lru.maxBytes c) (lru.nbytes c) (e :: lru.Remove k (lru.ll c))
       (lru.cache c) (lru.OnEvicted c) (lru.evicted c)).
Proof.
  intros [_ Hidx] He <-. unfold lru.Get, lru.MoveToFront.
  by rewrite (proj2 (Hidx (lru.key e) e)).
Qed.

Lemma Get_miss c k :
  lru.wf c → k ∉ lru.key <$> lru.ll c → lru.Get k c = (None, c).
Proof.
  intros [_ Hidx] Hk. unfold lru.Get.
  destruct (lru.cache c !! k) as [e|] eqn:He; [|done].
  apply Hidx in He as [He <-]. destruct Hk. by apply list_elem_of_fmap_2.
Qed.

Lemma wf_Get c k : lru.wf c → lru.wf (lru.Get k c).2.
Proof.
  intros Hwf. pose proof Hwf as [Hnd Hidx].
  destruct (decide (k ∈ lru.key <$> lru.ll c)) as [Hin|Hnotin].
  - apply list_elem_of_fmap in Hin as (e & -> & He).
    rewrite (Get_hit c _ e) by done. split; simpl.
    + apply NoDup_cons. split; [by apply Remove_key_gone|by apply NoDup_Remove].
    + intros k' e'. rewrite Hidx, elem_of_cons, elem_of_Remove by done.
      split.
      * intros [He' Hk']. split; [|done].
        destruct (decide (k' = lru.key e)) as [->|Hne];
          [left; by apply (NoDup_key_inj (lru.ll c))|right; split; [done|congruence]].
      * intros [[->|[? ?]] ?]; done.
  - by rewrite Get_miss.
Qed.
(** On a consistent store, [Add] is the insertion followed by at most one
    eviction. *)
Lemma Add_inserted c k v :
  lru.wf c →
  lru.Add k v c
  = if decide (lru.maxBytes c ≠ 0 ∧ lru.nbytes (lru.inserted k v c) > lru.maxBytes c)
    then lru.RemoveOldest (lru.inserted k v c)
    else lru.inserted k v c.
Proof.
  intros [Hnd Hidx]. unfold lru.Add, lru.inserted.
  destruct (lru.cache c !! k) as [kv|] eqn:Hkv; simpl.
  - apply Hidx in Hkv as [Hin ->]. done.
  - rewrite Remove_absent; [done|].
    intros (e & -> & He)%list_elem_of_fmap.
    by rewrite (proj2 (Hidx (lru.key e) e)) in Hkv.
Qed.

Lemma wf_inserted c k v : lru.wf c → lru.wf (lru.inserted k v c).
Proof.
  intros [Hnd Hidx]. split; simpl.
  - apply NoDup_cons. split; [by apply Remove_key_gone|by apply NoDup_Remove].
  - intros k' e'. rewrite lookup_insert_Some, Hidx, elem_of_cons,
      elem_of_Remove by done.
    split.
    + intros [[<- <-]|(Hne & He' & Hk')]; [by split; [left|]|].
      split; [right; split; [done|congruence]|done].
    + intros [[->|[He' Hne]] Hk']; simpl in *; [by left|].
      right. split_and!; [congruence|done..].
Qed.

Lemma wf_Add c k v : lru.wf c → lru.wf (lru.Add k v c).
Proof.
  intros Hwf. rewrite Add_inserted by done.
  case_decide; [apply wf_RemoveOldest|]; by apply wf_inserted.
Qed.

Section accounting.
Hypothesis Len_nonneg : ∀ v : V, 0 ≤ Len v.

Lemma size_of_nonneg e : 0 ≤ lru.size_of e.
Proof. pose proof (Len_nonneg (lru.value e)). unfold lru.size_of, len. lia. Qed.

Lemma total_nonneg l : 0 ≤ lru.total l.
Proof.
  induction l as [|e l IH]; [done|].
  rewrite total_cons. pose proof (size_of_nonneg e). lia.
Qed.

Lemma total_Remove_le k l : lru.total (lru.Remove k l) ≤ lru.total l.
Proof.
  induction l as [|e l IH]; simpl; [done|].
  pose proof (size_of_nonneg e). pose proof (total_nonneg l).
  case_decide; rewrite ?total_cons; lia.
Qed.

Lemma accounted_inserted c k v :
  lru.wf c → lru.accounted c →
  lru.total (lru.ll c) + len k + Len v < 2 ^ 63 →
  lru.accounted (lru.inserted k v c).
Proof.
  intros [Hnd Hidx] [Hn Hfit] Hroom.
  pose proof (Len_nonneg v). pose proof (total_nonneg (lru.Remove k (lru.ll c))).
  pose proof (total_Remove_le k (lru.ll c)).
  assert (0 ≤ len k) by (unfold len; lia).
  assert (lru.total (lru.ll (lru.inserted k v c))
          = len k + Len v + lru.total (lru.Remove k (lru.ll c))) as Htot
    by reflexivity.
  split; [|rewrite Htot; lia]. rewrite Htot. simpl.
  destruct (lru.cache c !! k) as [kv|] eqn:Hkv.
  - apply Hidx in Hkv as [Hin Hk].
    rewrite (total_Remove k _ kv Hin Hk Hnd) in Hn. unfold lru.size_of in Hn.
    rewrite Hk in Hn. rewrite wrap64_fits; lia.
  - assert (k ∉ lru.key <$> lru.ll c) as Hnotin.
    { intros (e & -> & He)%list_elem_of_fmap.
      by rewrite (proj2 (Hidx (lru.key e) e)) in Hkv. }
    rewrite (Remove_absent k (lru.ll c) Hnotin) in *.
    rewrite wrap64_fits; lia.
Qed.

Lemma accounted_RemoveOldest c : lru.accounted c → lru.accounted (lru.RemoveOldest c).
Proof.
  intros [Hn Hfit].
  destruct (last (lru.ll c)) as [e|] eqn:Hlast.
  - apply last_Some in Hlast as [l Hl]. rewrite (RemoveOldest_last c l e Hl).
    rewrite Hl, total_app in Hn, Hfit. unfold lru.accounted; simpl.
    pose proof (total_nonneg l). pose proof (total_nonneg [e]).
    assert (lru.total [e] = len (lru.key e) + Len (lru.value e)) as He
      by (rewrite total_cons; unfold lru.size_of, lru.total; simpl; lia).
    split; [|lia]. rewrite wrap64_fits; lia.
  - apply last_None in Hlast. by rewrite RemoveOldest_empty.
Qed.

Lemma accounted_Add c k v :
  lru.wf c → lru.accounted c →
  lru.total (lru.ll c) + len k + Len v < 2 ^ 63 →
  lru.accounted (lru.Add k v c).
Proof.
  intros Hwf Hacc Hroom. rewrite Add_inserted by done.
  case_decide; [apply accounted_RemoveOldest|]; by apply accounted_inserted.
Qed.

Lemma accounted_Get c k : lru.wf c → lru.accounted c → lru.accounted (lru.Get k c).2.
Proof.
  intros Hwf [Hn Hfit].
  destruct (decide (k ∈ lru.key <$> lru.ll c)) as [Hin|Hnotin].
  - apply list_elem_of_fmap in Hin as (e & -> & He).
    rewrite (Get_hit c _ e) by done. unfold lru.accounted; cbn [snd lru.nbytes lru.ll].
    destruct Hwf as [Hnd _].
    rewrite (total_Remove _ _ e He eq_refl Hnd) in Hn, Hfit.
    rewrite total_cons. lia.
  - rewrite Get_miss by done. done.
Qed.
End accounting.
End lru_facts.

Section lru_history.
Context {V : Type} `{!Value V}.
Implicit Types (c : lru.Cache V) (l : list (lru.entry V)) (e : lru.entry V)
  (k : string) (v : V) (ops : list (lru.call V)).

Lemma wf_apply c op : lru.wf c → lru.wf (lru.apply c op).
Proof.
  destruct op; simpl; [apply wf_Add|apply wf_Get|apply wf_RemoveOldest].
Qed.

Lemma wf_after ops c : lru.wf c → lru.wf (lru.after ops c).
Proof.
  revert c. induction ops as [|op ops IH]; intros c Hwf; [done|].
  apply IH. by apply wf_apply.
Qed.

Lemma wf_index c :
  lru.wf c → lru.cache c = list_to_map ((λ e, (lru.key e, e)) <$> lru.ll c).
Proof.
  intros [Hnd Hidx]. apply map_eq. intros k. apply option_eq. intros e.
  rewrite Hidx, <-elem_of_list_to_map.
  - rewrite list_elem_of_fmap. split.
    + intros [He <-]. by exists e.
    + intros (e' & [= -> ->] & He). done.
  - by rewrite <-list_fmap_compose.
Qed.

Lemma wf_size c : lru.wf c → size (lru.cache c) = length (lru.ll c).
Proof.
  intros Hwf. rewrite (wf_index c Hwf), <-length_map_to_list.
  rewrite map_to_list_to_map.
  - by rewrite length_fmap.
  - rewrite <-list_fmap_compose. apply Hwf.
Qed.
End lru_history.

Section lru_account.
Context {V : Type} `{!Value V}.
Hypothesis Len_nonneg : ∀ v : V, 0 ≤ Len v.
Implicit Types (c : lru.Cache V) (l : list (lru.entry V)) (e : lru.entry V)
  (k : string) (v : V) (ops : list (lru.call V)).

Lemma total_inserted c k v :
  lru.total (lru.ll (lru.inserted k v c))
  = len k + Len v + lru.total (lru.Remove k (lru.ll c)).
Proof. reflexivity. Qed.

Lemma total_RemoveOldest_le c :
  lru.total (lru.ll (lru.RemoveOldest c)) ≤ lru.total (lru.ll c).
Proof.
  destruct (last (lru.ll c)) as [e|] eqn:Hlast.
  - apply last_Some in Hlast as [l Hl]. rewrite (RemoveOldest_last c l e Hl).
    rewrite Hl, total_app. cbn [lru.ll].
    pose proof (total_nonneg Len_nonneg [e]). lia.
  - apply last_None in Hlast. by rewrite RemoveOldest_empty.
Qed.

Lemma total_apply_le c op :
  lru.wf c →
  lru.total (lru.ll (lru.apply c op)) ≤ lru.total (lru.ll c) + lru.added [op].
Proof.
  intros Hwf. destruct op as [k v| k |]; simpl.
  - rewrite Add_inserted by done.
    pose proof (total_Remove_le Len_nonneg k (lru.ll c)).
    pose proof (total_inserted c k v).
    case_decide; [pose proof (total_RemoveOldest_le (lru.inserted k v c))|]; lia.
  - destruct (decide (k ∈ lru.key <$> lru.ll c)) as [Hin|Hnotin].
    + apply list_elem_of_fmap in Hin as (e & -> & He).
      rewrite (Get_hit c _ e) by done. cbn [snd lru.ll].
      destruct Hwf as [Hnd _].
      rewrite total_cons, (total_Remove _ (lru.ll c) e He eq_refl Hnd). lia.
    + rewrite Get_miss by done. simpl. lia.
  - pose proof (total_RemoveOldest_le c). lia.
Qed.

Lemma added_nonneg ops : 0 ≤ lru.added ops.
Proof.
  induction ops as [|[k v| |] ops IH]; simpl; [done| |done..].
  pose proof (Len_nonneg v). unfold len. lia.
Qed.

Lemma accounted_apply c op :
  lru.wf c → lru.accounted c →
  lru.total (lru.ll c) + lru.added [op] < 2 ^ 63 →
  lru.accounted (lru.apply c op).
Proof.
  intros Hwf Hacc Hroom. destruct op as [k v| k |]; simpl in *.
  - apply accounted_Add; [done..|lia].
  - by apply accounted_Get.
  - by apply accounted_RemoveOldest.
Qed.

Lemma accounted_after ops c :
  lru.wf c → lru.accounted c →
  lru.total (lru.ll c) + lru.added ops < 2 ^ 63 →
  lru.accounted (lru.after ops c).
Proof.
  revert c. induction ops as [|op ops IH]; intros c Hwf Hacc Hroom; [done|].
  assert (lru.added (op :: ops) = lru.added [op] + lru.added ops) as Hsplit
    by (destruct op; simpl; lia).
  pose proof (added_nonneg ops). pose proof (added_nonneg [op]).
  pose proof (total_apply_le c op Hwf).
  apply IH; [by apply wf_apply|apply accounted_apply; [done..|lia]|lia].
Qed.
End lru_account.

Section lru_results.
Context {V : Type} `{!Value V}.
Implicit Types (c : lru.Cache V) (l : list (lru.entry V)) (e : lru.entry V)
  (k : string) (v : V) (ops : list (lru.call V)).

Lemma Get_value c k : (lru.Get k c).1 = lru.value <$> lru.cache c !! k.
Proof. unfold lru.Get. by destruct (lru.cache c !! k). Qed.

Lemma wf_lookup c e : lru.wf c → e ∈ lru.ll c → lru.cache c !! lru.key e = Some e.
Proof. intros [_ Hidx] He. by apply Hidx. Qed.

Lemma wf_lookup_None c k :
  lru.wf c → k ∉ lru.key <$> lru.ll c → lru.cache c !! k = None.
Proof.
  intros [_ Hidx] Hk. destruct (lru.cache c !! k) as [e|] eqn:He; [|done].
  apply Hidx in He as [He <-]. destruct Hk. by apply list_elem_of_fmap_2.
Qed.

Lemma wf_last_key c l e :
  lru.wf c → lru.ll c = l ++ [e] → lru.key e ∉ lru.key <$> l.
Proof.
  intros [Hnd _] Hl. rewrite Hl, fmap_app in Hnd.
  apply NoDup_app in Hnd as (_ & Hdisj & _). intros Hin.
  apply (Hdisj _ Hin). simpl. by left.
Qed.
End lru_results.

(** X1 (lru.go, [Add], [Get], [RemoveOldest], [Len]): whatever calls a
    client makes on a new cache, the list and the map stay two views of
    the same entries: no key occurs twice in the list, the map sends a key
    to the list entry of that key and to nothing else, and [Len] is the
    number of keys of the map. *)
Theorem lru_list_and_map_agree {V : Type} `{!Value V}
    (ops : list (lru.call V)) (maxBytes : Z) (hook : bool) :
  lru.wf (lru.after ops (lru.NewCache maxBytes hook))
  ∧ lru.Len_ (lru.after ops (lru.NewCache maxBytes hook))
    = Z.of_nat (size (lru.cache (lru.after ops (lru.NewCache maxBytes hook)))).
Proof.
  assert (lru.wf (lru.after ops (lru.NewCache maxBytes hook))) as Hwf
    by apply wf_after, wf_NewCache.
  split; [done|]. unfold lru.Len_. by rewrite wf_size.
Qed.

(** X2 (lru.go, [Add], [Get], [RemoveOldest]): when values have a
    non-negative length and the bytes brought in by the [Add] calls stay
    below [2^63], the counter [nbytes] is, after every call, the sum of
    [len(key) + value.Len()] over the entries of the list. *)
Theorem lru_nbytes_is_total_of_entries {V : Type} `{!Value V}
    (ops : list (lru.call V)) (maxBytes : Z) (hook : bool) :
  (∀ v : V, 0 ≤ Len v) →
  lru.added ops < 2 ^ 63 →
  lru.nbytes (lru.after ops (lru.NewCache maxBytes hook))
  = lru.total (lru.ll (lru.after ops (lru.NewCache maxBytes hook))).
Proof.
  intros Hlen Hroom.
  apply (accounted_after Hlen ops (lru.NewCache maxBytes hook));
    [apply wf_NewCache|done|done].
Qed.

Lemma lru_nbytes_is_total_of_entries_witness :
  lru.nbytes
    (lru.after [lru.CallAdd "k1" "v1"; lru.CallGet "k1"; lru.CallAdd "k2" "v2";
                lru.CallAdd "k1" "value"; lru.CallRemoveOldest]
       (lru.NewCache 9 true))
  = lru.total
      (lru.ll
         (lru.after [lru.CallAdd "k1" "v1"; lru.CallGet "k1";
                     lru.CallAdd "k2" "v2"; lru.CallAdd "k1" "value";
                     lru.CallRemoveOldest]
            (lru.NewCache 9 true))).
Proof.
  exact (lru_nbytes_is_total_of_entries
           [lru.CallAdd "k1" "v1"; lru.CallGet "k1"; lru.CallAdd "k2" "v2";
            lru.CallAdd "k1" "value"; lru.CallRemoveOldest] 9 true
           (λ v : string, Nat2Z.is_nonneg (String.length v))
           ltac:(vm_compute; reflexivity)).
Defined.

(** X3 (lru.go, [Add] then [Get]): on a consistent cache, a value that is
    added is returned by the next [Get] of its key, provided the cache is
    unbounded or the entry alone fits the capacity: the one eviction of
    [Add] then falls on another entry. *)
Theorem lru_Get_after_Add {V : Type} `{!Value V}
    (c : lru.Cache V) (k : string) (v : V) :
  (∀ v : V, 0 ≤ Len v) →
  lru.wf c → lru.accounted c →
  lru.total (lru.ll c) + len k + Len v < 2 ^ 63 →
  lru.maxBytes c = 0 ∨ len k + Len v ≤ lru.maxBytes c →
  (lru.Get k (lru.Add k v c)).1 = Some v.
Proof.
  intros Hlen Hwf Hacc Hroom Hfit. rewrite Get_value, Add_inserted by done.
  pose proof (wf_inserted c k v Hwf) as Hwfi.
  pose proof (accounted_inserted Hlen c k v Hwf Hacc Hroom) as [Hn _].
  case_decide as Hev; [|simpl; by rewrite lookup_insert_eq].
  destruct Hev as [Hne Hgt]. destruct Hfit as [?|Hfit]; [done|].
  rewrite Hn, total_inserted in Hgt.
  destruct (lru.Remove k (lru.ll c)) as [|e0 l0] eqn:Hrem;
    [unfold lru.total in Hgt; simpl in Hgt; lia|].
  destruct (exists_last (l:=e0 :: l0)) as (l' & e & Hl); [done|].
  assert (lru.ll (lru.inserted k v c) = (lru.Entry k v :: l') ++ [e]) as Hll
    by (simpl; by rewrite Hrem, Hl).
  pose proof (wf_last_key _ _ _ Hwfi Hll) as Hke.
  rewrite (RemoveOldest_last _ _ _ Hll); simpl.
  rewrite lookup_delete_ne, lookup_insert_eq; [done|].
  intros Hk. apply Hke. rewrite Hk. simpl. by left.
Qed.

Lemma lru_Get_after_Add_witness :
  (lru.Get "k3" (lru.Add "k3" "v3"
                   (lru.after [lru.CallAdd "k1" "v1"; lru.CallAdd "k2" "v2"]
                      (lru.NewCache 8 false)))).1
  = Some "v3".
Proof.
  apply (lru_Get_after_Add (V:=string)).
  - exact (λ v : string, Nat2Z.is_nonneg (String.length v)).
  - apply wf_after, wf_NewCache.
  - vm_compute; done.
  - vm_compute; reflexivity.
  - right; vm_compute; discriminate.
Defined.

(** X4 (lru.go, [Add]): an entry that is larger than the capacity of a
    bounded cache is evicted by the very [Add] that brings it in; the new
    cache is empty again and the hook, if installed, has received the
    entry. *)
Theorem lru_Add_oversized_entry_is_dropped {V : Type} `{!Value V}
    (k : string) (v : V) (maxBytes : Z) (hook : bool) :
  maxBytes ≠ 0 →
  - 2 ^ 63 ≤ maxBytes < len k + Len v →
  len k + Len v < 2 ^ 63 →
  lru.Add k v (lru.NewCache maxBytes hook)
  = lru.mkCache maxBytes 0 [] ∅ hook (if hook then [(k, v)] else []).
Proof.
  intros Hne Hlow Hhigh. rewrite Add_inserted by apply wf_NewCache.
  unfold lru.inserted, lru.NewCache; simpl. rewrite lookup_empty.
  rewrite Z.add_0_l, (wrap64_fits (len k + Len v)) by lia.
  rewrite decide_True by (split; [done|lia]).
  unfold lru.RemoveOldest, lru.Back; simpl.
  rewrite Z.sub_diag, delete_insert_eq, delete_empty. by destruct hook.
Qed.

Lemma lru_Add_oversized_entry_is_dropped_witness :
  lru.Add "key" "0123456789" (lru.NewCache 10 true)
  = lru.mkCache 10 0 [] ∅ true [("key", "0123456789")].
Proof.
  apply (lru_Add_oversized_entry_is_dropped (V:=string) "key" "0123456789" 10 true).
  - discriminate.
  - vm_compute; split; [discriminate|reflexivity].
  - vm_compute; reflexivity.
Defined.

Section lru_order.
Context {V : Type} `{!Value V}.
Implicit Types (c : lru.Cache V) (l : list (lru.entry V)) (e : lru.entry V)
  (k : string) (v : V) (ops : list (lru.call V)).

Lemma removelast_take {X} (l : list X) : removelast l = take (length l - 1) l.
Proof.
  destruct l as [|x l] using rev_ind; [done|].
  rewrite removelast_last, length_app; simpl.
  replace (length l + 1 - 1)%nat with (length l) by lia.
  by rewrite take_app_length.
Qed.

Lemma ll_RemoveOldest c : lru.ll (lru.RemoveOldest c) = removelast (lru.ll c).
Proof.
  unfold lru.RemoveOldest, lru.Back.
  destruct (last (lru.ll c)) eqn:Hlast; [done|].
  apply last_None in Hlast. by rewrite Hlast.
Qed.

Lemma ll_RemoveOldest_iter n c :
  lru.ll (Nat.iter n lru.RemoveOldest c) = take (length (lru.ll c) - n) (lru.ll c).
Proof.
  induction n as [|n IH]; simpl.
  - by rewrite Nat.sub_0_r, firstn_all.
  - rewrite ll_RemoveOldest, removelast_take, IH, length_take, take_take.
    f_equal. lia.
Qed.

Lemma wf_RemoveOldest_iter n c : lru.wf c → lru.wf (Nat.iter n lru.RemoveOldest c).
Proof. intros Hwf. induction n; simpl; [done|]. by apply wf_RemoveOldest. Qed.

Lemma Get_Some_entry c k v :
  lru.wf c → (lru.Get k c).1 = Some v →
  ∃ e, e ∈ lru.ll c ∧ lru.key e = k ∧ lru.value e = v.
Proof.
  intros [_ Hidx]. rewrite Get_value.
  destruct (lru.cache c !! k) as [e|] eqn:He; [|done]. intros [= <-].
  apply Hidx in He as [He Hk]. by exists e.
Qed.
End lru_order.

(** X5 (lru.go, [RemoveOldest]): on a consistent cache [RemoveOldest]
    removes the entry at the back of the list and no other: its key is no
    longer found, every other entry is still found with its value, and
    the hook, if installed, is told the key and value removed.  On an empty
    cache it does nothing. *)
Theorem lru_RemoveOldest_drops_back_entry_only {V : Type} `{!Value V}
    (c : lru.Cache V) :
  lru.wf c →
  (lru.ll c = [] → lru.RemoveOldest c = c)
  ∧ ∀ l e, lru.ll c = l ++ [e] →
      lru.ll (lru.RemoveOldest c) = l
      ∧ (lru.Get (lru.key e) (lru.RemoveOldest c)).1 = None
      ∧ (∀ e', e' ∈ l →
           (lru.Get (lru.key e') (lru.RemoveOldest c)).1 = Some (lru.value e'))
      ∧ lru.evicted (lru.RemoveOldest c)
        = (if lru.OnEvicted c
           then lru.evicted c ++ [(lru.key e, lru.value e)]
           else lru.evicted c).
Proof.
  intros Hwf. split; [apply RemoveOldest_empty|]. intros l e Hl.
  pose proof (wf_last_key c l e Hwf Hl) as Hke.
  rewrite !Get_value, (RemoveOldest_last c l e Hl); simpl.
  split_and!; [done|by rewrite lookup_delete_eq| |done].
  intros e' He'. rewrite Get_value; simpl. rewrite lookup_delete_ne.
  - rewrite (wf_lookup c e' Hwf); [done|]. rewrite Hl. apply elem_of_app. by left.
  - intros Hk. apply Hke. rewrite Hk. by apply list_elem_of_fmap_2.
Qed.

Lemma lru_RemoveOldest_drops_back_entry_only_witness :
  (lru.ll (lru.Add "b" "2" (lru.Add "a" "1" (lru.NewCache 0 true))) = [] →
   lru.RemoveOldest (lru.Add "b" "2" (lru.Add "a" "1" (lru.NewCache 0 true)))
   = lru.Add "b" "2" (lru.Add "a" "1" (lru.NewCache 0 true)))
  ∧ ∀ l e,
      lru.ll (lru.Add "b" "2" (lru.Add "a" "1" (lru.NewCache 0 true))) = l ++ [e] →
      lru.ll (lru.RemoveOldest
                (lru.Add "b" "2" (lru.Add "a" "1" (lru.NewCache 0 true)))) = l
      ∧ (lru.Get (lru.key e)
           (lru.RemoveOldest
              (lru.Add "b" "2" (lru.Add "a" "1" (lru.NewCache 0 true))))).1 = None
      ∧ (∀ e', e' ∈ l →
           (lru.Get (lru.key e')
              (lru.RemoveOldest
                 (lru.Add "b" "2" (lru.Add "a" "1" (lru.NewCache 0 true))))).1
           = Some (lru.value e'))
      ∧ lru.evicted
          (lru.RemoveOldest
             (lru.Add "b" "2" (lru.Add "a" "1" (lru.NewCache 0 true))))
        = (if lru.OnEvicted (lru.Add "b" "2" (lru.Add "a" "1" (lru.NewCache 0 true)))
           then lru.evicted (lru.Add "b" "2" (lru.Add "a" "1" (lru.NewCache 0 true)))
                ++ [(lru.key e, lru.value e)]
           else lru.evicted (lru.Add "b" "2" (lru.Add "a" "1" (lru.NewCache 0 true)))).
Proof.
  apply (lru_RemoveOldest_drops_back_entry_only (V:=string)).
  apply wf_Add, wf_Add, wf_NewCache.
Defined.

(** X6 (lru.go, [Get] and [RemoveOldest]): a hit of [Get] makes the entry
    the most recent one: it is evicted last, that is, it is still found
    after as many calls of [RemoveOldest] as the cache has other
    entries. *)
Theorem lru_Get_hit_is_evicted_last {V : Type} `{!Value V}
    (c : lru.Cache V) (k : string) (v : V) (n : nat) :
  lru.wf c →
  (lru.Get k c).1 = Some v →
  (n < length (lru.ll c))%nat →
  (lru.Get k (Nat.iter n lru.RemoveOldest (lru.Get k c).2)).1 = Some v.
Proof.
  intros Hwf Hget Hn.
  destruct (Get_Some_entry c k v Hwf Hget) as (e & He & Hk & Hv).
  pose proof (wf_RemoveOldest_iter n _ (wf_Get c k Hwf)) as Hwfn.
  assert (e ∈ lru.ll (Nat.iter n lru.RemoveOldest (lru.Get k c).2)) as Hin.
  { rewrite ll_RemoveOldest_iter, (Get_hit c k e) by done. cbn [snd lru.ll].
    assert (length (lru.ll c) = S (length (lru.Remove k (lru.ll c)))) as Hlen.
    { clear Hn. destruct Hwf as [Hnd _]. revert He Hnd.
      induction (lru.ll c) as [|e' l IH]; [by intros ?%elem_of_nil|].
      rewrite ?fmap_cons, NoDup_cons. intros He [Hnotin Hnd]; simpl.
      case_decide as Hk'; [done|]. simpl. f_equal. apply IH; [|done].
      apply elem_of_cons in He as [->|He]; [done|done]. }
    cbn [length]. rewrite <-Hlen.
    destruct (length (lru.ll c) - n)%nat as [|m] eqn:Hm; [lia|].
    simpl. by left. }
  subst k. rewrite Get_value, (wf_lookup _ e Hwfn Hin). simpl. by rewrite Hv.
Qed.

Lemma lru_Get_hit_is_evicted_last_witness :
  (lru.Get "a"
     (Nat.iter 2 lru.RemoveOldest
        (lru.Get "a"
           (lru.after [lru.CallAdd "a" "1"; lru.CallAdd "b" "2"; lru.CallAdd "c" "3"]
              (lru.NewCache 0 false))).2)).1
  = Some "1".
Proof.
  apply (lru_Get_hit_is_evicted_last (V:=string)).
  - apply wf_after, wf_NewCache.
  - vm_compute; reflexivity.
  - vm_compute; lia.
Defined.

Section lru_unbounded.
Context {V : Type} `{!Value V}.
Implicit Types (c : lru.Cache V) (k : string) (v : V) (ops : list (lru.call V))
  (m : gmap string V).

Lemma tracks_apply c m op :
  op ≠ lru.CallRemoveOldest → lru.tracks c m → lru.tracks (lru.apply c op) (lru.store m op).
Proof.
  intros Hop (Hwf & Hmax & Hev & Hm). destruct op as [k v|k|]; [| |done]; simpl.
  - rewrite Add_inserted by done. rewrite decide_False by (intros [? _]; done).
    split_and!; [by apply wf_inserted|done..|]. intros k'; simpl.
    destruct (decide (k = k')) as [->|Hne].
    + by rewrite !lookup_insert_eq.
    + by rewrite !lookup_insert_ne.
  - split; [by apply wf_Get|]. unfold lru.Get.
    by destruct (lru.cache c !! k).
Qed.

Lemma tracks_after ops c m :
  lru.CallRemoveOldest ∉ ops → lru.tracks c m →
  lru.tracks (lru.after ops c) (foldl lru.store m ops).
Proof.
  revert c m. induction ops as [|op ops IH]; intros c m Hops Ht; [done|].
  apply not_elem_of_cons in Hops as [Hop Hops]. simpl.
  apply IH; [done|]. by apply tracks_apply.
Qed.
End lru_unbounded.

(** X7 (lru.go, [Add] and [Get] with [maxBytes = 0]): a cache without a
    capacity never evicts on its own.  After any calls of [Add] and [Get],
    a [Get] finds for every key the value of the last [Add] of that key, as
    a plain map would, and the hook has not been called. *)
Theorem lru_unbounded_cache_is_a_map {V : Type} `{!Value V}
    (ops : list (lru.call V)) (hook : bool) (k : string) :
  lru.CallRemoveOldest ∉ ops →
  (lru.Get k (lru.after ops (lru.NewCache 0 hook))).1 = lru.stored ops !! k
  ∧ lru.evicted (lru.after ops (lru.NewCache 0 hook)) = [].
Proof.
  intros Hops.
  destruct (tracks_after ops (lru.NewCache 0 hook) ∅ Hops) as (_ & _ & Hev & Hm).
  - split_and!; [apply wf_NewCache|done..|]. intros k'; simpl.
    by rewrite !lookup_empty.
  - split; [|done]. rewrite Get_value. apply Hm.
Qed.

Lemma lru_unbounded_cache_is_a_map_witness :
  (lru.Get "a"
     (lru.after [lru.CallAdd "a" "1"; lru.CallAdd "b" "2"; lru.CallGet "b";
                 lru.CallAdd "a" "3"]
        (lru.NewCache 0 true))).1
  = lru.stored [lru.CallAdd "a" "1"; lru.CallAdd "b" "2"; lru.CallGet "b";
                lru.CallAdd "a" "3"] !! "a"
  ∧ lru.evicted
      (lru.after [lru.CallAdd "a" "1"; lru.CallAdd "b" "2"; lru.CallGet "b";
                  lru.CallAdd "a" "3"]
         (lru.NewCache 0 true)) = [].
Proof.
  apply (lru_unbounded_cache_is_a_map (V:=string)).
  intros Hin. apply list_elem_of_In in Hin. simpl in Hin. intuition discriminate.
Defined.

(** ** Binary search *)

Section search.
Import sort.







Lemma Sorted_Ints (a : list Z) : Sorted Z.le (Ints a).
Proof. apply (Sorted_merge_sort Z.le). Qed.

Lemma Ints_Permutation (a : list Z) : Ints a ≡ₚ a.
Proof. apply (merge_sort_Permutation Z.le). Qed.

Lemma Ints_sorted_id (a : list Z) : Sorted Z.le a → Ints a = a.
Proof.
  intros. apply (Sorted_unique Z.le); [apply Sorted_Ints|done|apply Ints_Permutation].
Qed.
End search.

(** ** The hash ring *)

Section ring.
Import consistenthash.



Lemma search_loop_nonneg (f : Z → bool) (fuel : nat) :
  ∀ i j, 0 ≤ i → 0 ≤ sort.search_loop fuel f i j.
Proof.
  induction fuel as [|fuel IH]; intros i j Hi; simpl; [done|].
  case_decide; [|done].
  destruct (negb _); apply IH; [|done].
  rewrite Z.shiftr_div_pow2 by lia. change (2 ^ 1) with 2.
  assert (0 ≤ (i + j) `div` 2) by (apply Z.div_pos; lia). lia.
Qed.





End ring.



(** *** Rings built by [Add] alone *)

Section build.
Import consistenthash.

Lemma add_replicas_spec key ixs :
  ∀ m,
    let m' := foldl (add_replica key) m ixs in
    let ps := (λ i, (hash m (strconv.Itoa i +:+ key), key)) <$> ixs in
    hash m' = hash m ∧ replicas m' = replicas m ∧
    keys m' = keys m ++ ps.*1 ∧
    hashMap m' = record_points (hashMap m) ps.
Proof.
  induction ixs as [|i ixs IH]; intros m; simpl.
  - by rewrite app_nil_r.
  - destruct (IH (add_replica key m i)) as (Hh & Hr & Hk & Hm).
    simpl in *. rewrite Hh, Hr, Hk, Hm. by rewrite <-app_assoc.
Qed.

Lemma add_node_spec m node :
  let m' := add_node m node in
  let ps := points (hash m) (replicas m) node in
  hash m' = hash m ∧ replicas m' = replicas m ∧
  keys m' = keys m ++ ps.*1 ∧
  hashMap m' = record_points (hashMap m) ps.
Proof. apply add_replicas_spec. Qed.

Lemma record_points_app hm ps1 ps2 :
  record_points hm (ps1 ++ ps2) = record_points (record_points hm ps1) ps2.
Proof. apply foldl_app. Qed.

Lemma add_nodes_spec ks :
  ∀ m,
    let m' := foldl add_node m ks in
    let ps := ks ≫= points (hash m) (replicas m) in
    hash m' = hash m ∧ replicas m' = replicas m ∧
    keys m' = keys m ++ ps.*1 ∧
    hashMap m' = record_points (hashMap m) ps.
Proof.
  induction ks as [|k ks IH]; intros m; simpl.
  - by rewrite app_nil_r.
  - destruct (add_node_spec m k) as (Hh1 & Hr1 & Hk1 & Hm1).
    destruct (IH (add_node m k)) as (Hh & Hr & Hk & Hm).
    simpl in *. rewrite Hh, Hr, Hk, Hm, Hh1, Hr1, Hk1, Hm1.
    by rewrite fmap_app, record_points_app, <-app_assoc.
Qed.

Lemma Add_spec ks m :
  let ps := ks ≫= points (hash m) (replicas m) in
  hash (Add ks m) = hash m ∧ replicas (Add ks m) = replicas m ∧
  keys (Add ks m) = sort.Ints (keys m ++ ps.*1) ∧
  hashMap (Add ks m) = record_points (hashMap m) ps.
Proof.
  destruct (add_nodes_spec ks m) as (Hh & Hr & Hk & Hm).
  unfold Add; simpl in *. by rewrite Hh, Hr, Hk, Hm.
Qed.

Lemma Adds_spec calls :
  ∀ m,
    let m' := foldl (λ m ks, Add ks m) m calls in
    let ps := concat calls ≫= points (hash m) (replicas m) in
    hash m' = hash m ∧ replicas m' = replicas m ∧
    keys m' ≡ₚ keys m ++ ps.*1 ∧
    hashMap m' = record_points (hashMap m) ps.
Proof.
  induction calls as [|ks calls IH]; intros m; simpl.
  - by rewrite app_nil_r.
  - destruct (Add_spec ks m) as (Hh1 & Hr1 & Hk1 & Hm1).
    destruct (IH (Add ks m)) as (Hh & Hr & Hk & Hm).
    simpl in *. rewrite Hh, Hr, Hk, Hm, Hh1, Hr1, Hk1, Hm1.
    split_and!; [done..| |].
    + rewrite Ints_Permutation, bind_app, fmap_app. by rewrite <-app_assoc.
    + by rewrite bind_app, record_points_app.
Qed.

Lemma Adds_sorted calls m :
  Sorted Z.le (keys m) → Sorted Z.le (keys (foldl (λ m ks, Add ks m) m calls)).
Proof.
  revert m. induction calls as [|ks calls IH]; intros m Hs; simpl; [done|].
  apply IH, Sorted_Ints.
Qed.

(** What the map holds after the points [ps] were written: the owner
    written last for that position. *)
Lemma record_points_Some ps h n :
  record_points ∅ ps !! h = Some n → (h, n) ∈ ps.
Proof.
  induction ps as [|[h' n'] ps IH] using rev_ind; [done|].
  rewrite record_points_app; simpl.
  destruct (decide (h' = h)) as [->|Hne].
  - rewrite lookup_insert_eq. intros [= ->]. apply elem_of_app; right. by left.
  - rewrite lookup_insert_ne by done. intros ?%IH. apply elem_of_app; by left.
Qed.

Lemma record_points_functional ps h n :
  (∀ n', (h, n') ∈ ps → n' = n) → (h, n) ∈ ps →
  record_points ∅ ps !! h = Some n.
Proof.
  induction ps as [|[h' n'] ps IH] using rev_ind; [by intros _ ?%elem_of_nil|].
  intros Hfun Hin. rewrite record_points_app; simpl.
  destruct (decide (h' = h)) as [->|Hne].
  - rewrite lookup_insert_eq. f_equal. apply Hfun, elem_of_app; right. by left.
  - rewrite lookup_insert_ne by done. apply IH.
    + intros n'' ?. apply Hfun, elem_of_app; by left.
    + apply elem_of_app in Hin as [?|Hin]; [done|].
      apply list_elem_of_singleton in Hin. by simplify_eq.
Qed.

Lemma elem_of_points h replicas nodes p :
  p ∈ nodes ≫= points h replicas ↔
  ∃ i, p.2 ∈ nodes ∧ 0 ≤ i < replicas ∧ p.1 = h (strconv.Itoa i +:+ p.2).
Proof.
  rewrite list_elem_of_bind. unfold points. split.
  - intros (n & (i & -> & Hi)%list_elem_of_fmap & Hn).
    apply elem_of_seqZ in Hi. exists i; simpl. split_and!; [done|lia..|done].
  - intros (i & Hn & Hi & Hp). exists p.2. split; [|done].
    apply list_elem_of_fmap. exists i. split; [destruct p; simpl in *; by subst|].
    apply elem_of_seqZ. lia.
Qed.

(** Without collisions between nodes, the map of virtual points does not
    depend on the order the points were written in. *)
Lemma record_points_Permutation h replicas nodes1 nodes2 :
  collision_free h replicas nodes1 → nodes1 ≡ₚ nodes2 →
  record_points ∅ (nodes1 ≫= points h replicas)
  = record_points ∅ (nodes2 ≫= points h replicas).
Proof.
  intros Hfree Hperm. apply map_eq; intros pos. apply option_eq; intros n.
  assert (∀ nodes, nodes ≡ₚ nodes1 →
            (record_points ∅ (nodes ≫= points h replicas) !! pos = Some n
             ↔ (pos, n) ∈ nodes1 ≫= points h replicas)) as Hchar.
  { intros nodes Hp. split.
    - intros Hin%record_points_Some. by rewrite <-Hp.
    - intros Hin. apply record_points_functional; [|by rewrite Hp].
      intros n' Hin'. rewrite Hp in Hin'.
      apply elem_of_points in Hin as (i & ? & ? & ?).
      apply elem_of_points in Hin' as (i' & ? & ? & ?). simpl in *.
      apply (Hfree n' n i' i); [done..|congruence]. }
  by rewrite (Hchar nodes1), (Hchar nodes2).
Qed.

(** On a ring built by [Add] alone every position has its owner in the
    map, and the owner is a node that was added. *)
Lemma build_position_owned replicas fn calls pos :
  pos ∈ keys (build replicas fn calls) →
  ∃ node, hashMap (build replicas fn calls) !! pos = Some node
          ∧ node ∈ concat calls.
Proof.
  unfold build.
  destruct (Adds_spec calls (New replicas fn)) as (_ & _ & Hk & Hm).
  simpl in *. rewrite Hk, Hm. clear Hk Hm.
  assert (∀ ps, (∀ p, p ∈ ps → p.2 ∈ concat calls) →
                pos ∈ ps.*1 →
                ∃ node, record_points ∅ ps !! pos = Some node ∧ node ∈ concat calls)
    as Hgen.
  { induction ps as [|[h' n'] ps IH] using rev_ind; [by intros _ ?%elem_of_nil|].
    intros Hall Hin. rewrite record_points_app; simpl.
    destruct (decide (h' = pos)) as [->|Hne].
    - exists n'. rewrite lookup_insert_eq. split; [done|].
      apply (Hall (pos, n')), elem_of_app; right; by left.
    - rewrite lookup_insert_ne by done. apply IH.
      + intros p ?. apply Hall, elem_of_app; by left.
      + rewrite fmap_app in Hin. apply elem_of_app in Hin as [?|Hin]; [done|].
        apply list_elem_of_singleton in Hin. by simplify_eq/=. }
  apply Hgen. intros p (i & ? & _)%elem_of_points. done.
Qed.
End build.

(** C8, as it is stated, fails when two nodes share a ring position: with a
    hash that sends every input to 0, one replica per node and the nodes
    "a" and "b", the node that is added last owns the position, so the two
    orders give two different owners for the key "k". *)
Lemma ring_order_decides_shared_position :
  let fn := Some (λ _ : string, 0) in
  consistenthash.Get "k" (consistenthash.build 1 fn [["a"; "b"]])
  ≠ consistenthash.Get "k" (consistenthash.build 1 fn [["b"; "a"]]).
Proof. vm_compute. done. Qed.

(** C8, amended: for every hash function and every list of nodes of which no
    two different nodes share a ring position, two rings built with the same
    number of replicas by adding the same nodes, in any two orders and in any
    grouping into calls of [Add], give every key the same node. *)
Theorem ring_mapping_independent_of_order
    (replicas : Z) (fn : option consistenthash.Hash) (calls1 calls2 : list (list string)) :
  concat calls1 ≡ₚ concat calls2 →
  consistenthash.collision_free (default crc32.ChecksumIEEE fn) replicas (concat calls1) →
  ∀ key, consistenthash.Get key (consistenthash.build replicas fn calls1)
         = consistenthash.Get key (consistenthash.build replicas fn calls2).
Proof.
  intros Hperm Hfree key. f_equal. unfold consistenthash.build.
  destruct (Adds_spec calls1 (consistenthash.New replicas fn)) as (Hh1 & Hr1 & Hk1 & Hm1).
  destruct (Adds_spec calls2 (consistenthash.New replicas fn)) as (Hh2 & Hr2 & Hk2 & Hm2).
  pose proof (Adds_sorted calls1 (consistenthash.New replicas fn)) as Hs1.
  pose proof (Adds_sorted calls2 (consistenthash.New replicas fn)) as Hs2.
  destruct (foldl _ _ calls1) as [h1 r1 k1 hm1], (foldl _ _ calls2) as [h2 r2 k2 hm2].
  simpl in *. subst h1 r1 h2 r2 hm1 hm2. f_equal.
  - apply (Sorted_unique Z.le); [apply Hs1; constructor|apply Hs2; constructor|].
    rewrite Hk1, Hk2. by rewrite Hperm.
  - by apply record_points_Permutation.
Qed.

Lemma ring_mapping_independent_of_order_witness :
  concat [["2"; "4"]] ≡ₚ concat [["4"]; ["2"]]
  ∧ consistenthash.Get "7" (consistenthash.build 2 (Some consistenthash.decimal) [["2"; "4"]])
    = consistenthash.Get "7" (consistenthash.build 2 (Some consistenthash.decimal) [["4"]; ["2"]]).
Proof.
  split; [apply perm_swap|].
  apply ring_mapping_independent_of_order; [apply perm_swap|].
  intros n1 n2 i1 i2 Hn1 Hn2 Hi1 Hi2.
  assert (i1 = 0 ∨ i1 = 1) as Hc1 by lia.
  assert (i2 = 0 ∨ i2 = 1) as Hc2 by lia.
  simpl in Hn1, Hn2. set_unfold.
  destruct Hn1 as [->|[->|[]]], Hn2 as [->|[->|[]]],
    Hc1 as [->| ->], Hc2 as [->| ->]; vm_compute; congruence.
Defined.

Lemma build_ring replicas fn calls :
  consistenthash.ring (consistenthash.build replicas fn calls).
Proof.
  unfold consistenthash.build.
  induction calls as [|ks calls IH] using rev_ind; simpl.
  - constructor.
  - rewrite foldl_app; simpl. by constructor.
Qed.

(** Every turn of the loop of [Remove] that does not panic takes exactly one
    position out of the ring, whether or not it is a point of the node. *)
Lemma remove_loop_length key ixs :
  ∀ m m', consistenthash.remove_loop key m ixs = consistenthash.Done m' →
          (length (consistenthash.keys m') + length ixs)%nat
          = length (consistenthash.keys m).
Proof.
  induction ixs as [|i ixs IH]; intros m m'; simpl.
  - intros [= <-]. lia.
  - destruct (consistenthash.remove_replica key m i) as [m1|m1] eqn:Hrep; [|done].
    intros Hloop%IH. unfold consistenthash.remove_replica in Hrep.
    case_decide as Hidx; [done|]. injection Hrep as <-. simpl in *.
    assert (0 ≤ sort.SearchInts (consistenthash.keys m)
                  (consistenthash.hash m (strconv.Itoa i +:+ key)))
      by (apply search_loop_nonneg; lia).
    rewrite length_app, length_take, length_drop in Hloop. lia.
Qed.

Lemma Remove_length key m m' :
  consistenthash.Remove key m = consistenthash.Done m' →
  Z.of_nat (length (consistenthash.keys m'))
  = Z.of_nat (length (consistenthash.keys m)) - Z.max 0 (consistenthash.replicas m).
Proof.
  unfold consistenthash.Remove.
  destruct (consistenthash.remove_loop _ _ _) as [m1|] eqn:Hloop; [|done].
  intros [= <-]; simpl. apply remove_loop_length in Hloop.
  rewrite (Permutation_length (Ints_Permutation _)).
  rewrite length_seqZ in Hloop. lia.
Qed.

(** C9: there is a ring and a node none of whose virtual points is on the
    ring for which [Remove] takes away positions that the map gives to
    another, registered, node; and there is one for which [Remove] stops
    in the slice-bounds panic.  On the ring of the nodes "6", "4" and "2"
    with three replicas and the decimal hash, [Remove("1")] deletes the
    positions 2, 12 and 22 of node "2", and [Remove("8")] panics at its
    third point, 28, which is above every position. *)
Theorem ring_Remove_of_absent_node_is_not_a_noop :
  (∃ m node m' pos other,
      consistenthash.ring m ∧ consistenthash.absent node m ∧
      consistenthash.Remove node m = consistenthash.Done m' ∧
      pos ∈ consistenthash.keys m ∧
      consistenthash.hashMap m !! pos = Some other ∧ other ≠ node ∧
      pos ∉ consistenthash.keys m')
  ∧ (∃ m node m',
      consistenthash.ring m ∧ consistenthash.absent node m ∧
      consistenthash.Remove node m = consistenthash.PanicSliceBounds m').
Proof.
  set (m := consistenthash.build 3 (Some consistenthash.decimal) [["6"; "4"; "2"]]).
  assert (∀ i, 0 ≤ i < 3 → i = 0 ∨ i = 1 ∨ i = 2) as Hcases by lia.
  split.
  - exists m, "1".
    eexists (consistenthash.mkMap _ _ _ _), 2, "2".
    split_and!; [apply build_ring| |vm_compute; reflexivity|..].
    + intros i [->|[->| ->]]%Hcases; vm_compute;
        intros Hin; repeat (inv Hin as [|? ? ? Hin']; rename Hin' into Hin).
    + vm_compute. by left.
    + by vm_compute.
    + done.
    + vm_compute. intros Hin; repeat (inv Hin as [|? ? ? Hin']; rename Hin' into Hin).
  - exists m, "8". eexists (consistenthash.mkMap _ _ _ _).
    split_and!; [apply build_ring| |vm_compute; reflexivity].
    intros i [->|[->| ->]]%Hcases; vm_compute;
      intros Hin; repeat (inv Hin as [|? ? ? Hin']; rename Hin' into Hin).
Qed.

(** ** The cache group, run by one goroutine *)

Section group.
Import groupcache.
Context {E : Type}.
Implicit Types (s : St E) (key : string).

Lemma cloneBytes_id (bs : list byte) : cloneBytes bs = bs.
Proof.
  unfold cloneBytes, copy, make. rewrite length_replicate.
  rewrite firstn_all, drop_ge by (by rewrite length_replicate).
  apply app_nil_r.
Qed.

(** A lookup that finds nothing leaves the store as it was. *)
Lemma get_miss key (c : cache) v c' :
  get key c = ((v, false), c') → v = mkByteView [] ∧ c' = c.
Proof.
  unfold get, lru.Get. destruct c as [[l|] cb]; simpl.
  - destruct (lru.cache l !! key); intros [= <- <-]; done.
  - by intros [= <- <-].
Qed.

(** A lookup that finds the key moves its entry and changes nothing
    else. *)
Lemma get_hit_contents key (c : cache) v c' :
  get key c = ((v, true), c') → contents c' = contents c.
Proof.
  unfold get, lru.Get, contents. destruct c as [[l|] cb]; simpl; [|done].
  destruct (lru.cache l !! key); intros [= <- <-]; done.
Qed.

(** With no call in flight for the key, [Do] runs [fn] and gives its
    result. *)
Lemma Do_not_in_flight {A W} key (fn : W → (A * option error) * W)
    (g : singleflight.Group A) (w : W) :
  default ∅ (singleflight.m g) !! key = None →
  singleflight.Do key fn g w
  = (singleflight.Returns (fn w).1,
     singleflight.mkGroup (Some (delete key (<[key := singleflight.mkCall 1 None None]>
                                               (default ∅ (singleflight.m g))))),
     (fn w).2).
Proof. unfold singleflight.Do. intros ->. by destruct (fn w). Qed.

(** The origin fetch: an error is handed on with the zero value and
    nothing is stored; bytes are copied, stored and returned. *)
Lemma getLocally_spec key s :
  ∃ bytes oerr e',
    getter (grp s) key (env s) = ((bytes, oerr), e') ∧
    getLocally key s =
      match oerr with
      | Some e =>
          ((mkByteView [], Some e),
           mkSt (grp s) e' (trace s ++ [EvOrigin key bytes oerr]))
      | None =>
          ((mkByteView bytes, None),
           mkSt (set_mainCache (add key (mkByteView bytes) (mainCache (grp s))) (grp s))
             e' (trace s ++ [EvOrigin key bytes oerr]))
      end.
Proof.
  unfold getLocally.
  destruct (getter (grp s) key (env s)) as [[bytes oerr] e'].
  exists bytes, oerr, e'. split; [done|].
  destruct oerr; [done|]. unfold populateCate; simpl. by rewrite cloneBytes_id.
Qed.
(** The miss path of [Get], once the key is not empty, the store does not
    hold it and no call for it is in flight: [load] hands the result of the
    function literal on. *)
Lemma Get_miss_path key s :
  key ≠ "" →
  (get key (mainCache (grp s))).1.2 = false →
  default ∅ (singleflight.m (loader (grp s))) !! key = None →
  ∃ l',
    let '(r, (vars, s')) := load_fn key ((mkByteView [], None), s) in
    Get key s =
      (singleflight.Returns
         match r.2 with
         | Some e => (vars.1, Some e)
         | None => (r.1, None)
         end,
       mkSt (set_loader l' (grp s')) (env s') (trace s')).
Proof.
  intros Hkey Hmiss Hidle. unfold Get. rewrite decide_False by done.
  destruct (get key (mainCache (grp s))) as [[v ok] c'] eqn:Hget.
  simpl in Hmiss; subst ok. apply get_miss in Hget as [-> ->].
  assert (set_mainCache (mainCache (grp s)) (grp s) = grp s) as ->
    by (by destruct (grp s)).
  assert (mkSt (grp s) (env s) (trace s) = s) as -> by (by destruct s).
  unfold load. rewrite Do_not_in_flight by done.
  destruct (load_fn key _) as [[view err] [vars s']]; simpl.
  eexists. destruct err; reflexivity.
Qed.
(** Every way a call of [Get] can go, with the calls it makes to its
    capabilities and what it does to the store. *)
Lemma Get_cases key s o s' :
  Get key s = (o, s') →
  (* the empty key *)
  (key = "" ∧ o = singleflight.Returns (mkByteView [], Some "key is required")
   ∧ s' = s)
  (* found in the store *)
  ∨ (∃ v c', get key (mainCache (grp s)) = ((v, true), c')
             ∧ o = singleflight.Returns (v, None)
             ∧ mainCache (grp s') = c' ∧ trace s' = trace s)
  (* parked behind a call in flight *)
  ∨ (o = singleflight.Waits
     ∧ mainCache (grp s') = mainCache (grp s) ∧ trace s' = trace s)
  (* answered by a peer *)
  ∨ (∃ req out,
        o = singleflight.Returns (mkByteView (Value_ out), None)
        ∧ mainCache (grp s') = mainCache (grp s)
        ∧ trace s' = trace s ++ [EvPickPeer key true; EvPeerGet req out None])
  (* answered by the origin *)
  ∨ (∃ pre bytes oerr,
        (pre = [] ∨ pre = [EvPickPeer key false]
         ∨ ∃ req out perr, pre = [EvPickPeer key true; EvPeerGet req out (Some perr)])
        ∧ trace s' = trace s ++ pre ++ [EvOrigin key bytes oerr]
        ∧ match oerr with
          | Some e =>
              o = singleflight.Returns (mkByteView [], Some e)
              ∧ mainCache (grp s') = mainCache (grp s)
          | None =>
              o = singleflight.Returns (mkByteView bytes, None)
              ∧ mainCache (grp s') = add key (mkByteView bytes) (mainCache (grp s))
          end).
Proof.
  intros HGet. unfold Get in HGet. case_decide as Hkey.
  { injection HGet as <- <-. by left. }
  destruct (get key (mainCache (grp s))) as [[v ok] c'] eqn:Hget.
  destruct ok.
  { injection HGet as <- <-. right; left. by exists v, c'. }
  apply get_miss in Hget as [-> ->].
  assert (set_mainCache (mainCache (grp s)) (grp s) = grp s) as Hg
    by (by destruct (grp s)).
  rewrite Hg in HGet.
  assert (mkSt (grp s) (env s) (trace s) = s) as Hs by (by destruct s).
  rewrite Hs in HGet. clear Hg Hs.
  unfold load, singleflight.Do in HGet.
  destruct (default ∅ (singleflight.m (loader (grp s))) !! key) as [c|].
  { injection HGet as <- <-. right; right; left. done. }
  right; right; right.
  unfold load_fn in HGet.
  destruct (peers (grp s)) as [pick|].
  - destruct (pick key (env s)) as [[peer|] e1]; simpl in HGet.
    + unfold getFromPeer in HGet; simpl in HGet.
      destruct (peer _ _ e1) as [[out [perr|]] e2]; simpl in HGet.
      * match type of HGet with
        | context [getLocally key ?s2] =>
            destruct (getLocally_spec key s2) as (bytes & oerr & e3 & _ & Hloc)
        end.
        rewrite Hloc in HGet. clear Hloc.
        right. eexists [_; _], bytes, oerr.
        destruct oerr; simpl in HGet; injection HGet as <- <-; simpl;
          (split; [eauto 10|]); by rewrite <-!app_assoc.
      * injection HGet as <- <-; simpl. left. eexists _, out.
        split_and!; [done..|]. by rewrite <-app_assoc.
    + match type of HGet with
      | context [getLocally key ?s2] =>
          destruct (getLocally_spec key s2) as (bytes & oerr & e3 & _ & Hloc)
      end.
      rewrite Hloc in HGet. clear Hloc.
      right. exists [EvPickPeer key false], bytes, oerr.
      destruct oerr; simpl in HGet; injection HGet as <- <-; simpl;
        (split; [eauto|]); by rewrite <-!app_assoc.
  - destruct (getLocally_spec key s) as (bytes & oerr & e3 & _ & Hloc).
    rewrite Hloc in HGet. clear Hloc.
    right. exists [], bytes, oerr.
    destruct oerr; simpl in HGet; injection HGet as <- <-; simpl;
      (split; [eauto|]); done.
Qed.
End group.

(** C4: on a group with a peer router, for a key that is not empty, not in
    the store and not in flight, when the router picks a peer and the peer
    fetch fails, [Get] goes on to the origin in the same call and returns
    what the origin fetch gives: the bytes of the origin with no error, or
    the error of the origin.  The error of the peer is not returned. *)
Theorem Get_peer_failure_falls_through_to_origin {E : Type}
    (key : string) (s : groupcache.St E)
    (pick : groupcache.PeerPicker E) (peer : groupcache.PeerGetter E)
    (e1 e2 : E) (out : groupcache.Response) (perr : error) :
  key ≠ "" →
  (groupcache.get key (groupcache.mainCache (groupcache.grp s))).1.2 = false →
  default ∅ (singleflight.m (groupcache.loader (groupcache.grp s))) !! key = None →
  groupcache.peers (groupcache.grp s) = Some pick →
  pick key (groupcache.env s) = (Some peer, e1) →
  peer (groupcache.mkRequest (groupcache.name (groupcache.grp s)) key)
       (groupcache.mkResponse []) e1 = ((out, Some perr), e2) →
  ∃ bytes oerr e3 s',
    groupcache.getter (groupcache.grp s) key e2 = ((bytes, oerr), e3)
    ∧ groupcache.Get key s =
        (singleflight.Returns
           match oerr with
           | Some e => (groupcache.mkByteView [], Some e)
           | None => (groupcache.mkByteView bytes, None)
           end, s')
    ∧ groupcache.env s' = e3
    ∧ groupcache.trace s' =
        groupcache.trace s
        ++ [groupcache.EvPickPeer key true;
            groupcache.EvPeerGet
              (groupcache.mkRequest (groupcache.name (groupcache.grp s)) key)
              out (Some perr);
            groupcache.EvOrigin key bytes oerr].
Proof.
  intros Hkey Hmiss Hidle Hpeers Hpick Hpeer.
  destruct (Get_miss_path key s Hkey Hmiss Hidle) as [l' Hget].
  unfold groupcache.load_fn in Hget. rewrite Hpeers, Hpick in Hget.
  unfold groupcache.getFromPeer in Hget; simpl in Hget. rewrite Hpeer in Hget.
  match type of Hget with
  | context [groupcache.getLocally key ?s2] =>
      destruct (getLocally_spec key s2) as (bytes & oerr & e3 & Hgetter & Hloc)
  end.
  simpl in Hgetter. rewrite Hloc in Hget. clear Hloc.
  destruct oerr as [oe|]; simpl in Hget;
    [exists bytes, (Some oe), e3|exists bytes, None, e3];
    (eexists; split; [done|]); rewrite Hget; simpl;
    (split; [reflexivity|]); (split; [reflexivity|]);
    by rewrite <-!app_assoc.
Qed.

Lemma Get_peer_failure_falls_through_to_origin_witness :
  let s := scores.start (Some (scores.always scores.failing_peer)) in
  ∃ bytes oerr e3 s',
    groupcache.getter (groupcache.grp s) "Tom" 2%nat = ((bytes, oerr), e3)
    ∧ groupcache.Get "Tom" s =
        (singleflight.Returns
           match oerr with
           | Some e => (groupcache.mkByteView [], Some e)
           | None => (groupcache.mkByteView bytes, None)
           end, s')
    ∧ groupcache.env s' = e3
    ∧ groupcache.trace s' =
        groupcache.trace s
        ++ [groupcache.EvPickPeer "Tom" true;
            groupcache.EvPeerGet
              (groupcache.mkRequest (groupcache.name (groupcache.grp s)) "Tom")
              (groupcache.mkResponse [])
              (Some "server returned: 500 Internal Server Error");
            groupcache.EvOrigin "Tom" bytes oerr].
Proof.
  exact (Get_peer_failure_falls_through_to_origin "Tom"
           (scores.start (Some (scores.always scores.failing_peer)))
           (scores.always scores.failing_peer) scores.failing_peer 1%nat 2%nat
           (groupcache.mkResponse []) "server returned: 500 Internal Server Error"
           ltac:(done) eq_refl eq_refl eq_refl eq_refl eq_refl).
Defined.

(** C5: when the value of a key comes from a peer (the key is not empty, not
    in the store and not in flight, the router picks a peer and the peer
    fetch succeeds), [Get] returns the bytes of the peer and the store of
    this node is left as it was.  And for every call of [Get] on every
    state: either the store holds what it held before, or the origin was
    asked, answered without error, and its bytes are what [add] put into
    the store under the key. *)
Theorem Get_peer_value_returned_not_stored {E : Type}
    (key : string) (s : groupcache.St E)
    (pick : groupcache.PeerPicker E) (peer : groupcache.PeerGetter E)
    (e1 e2 : E) (out : groupcache.Response) :
  key ≠ "" →
  (groupcache.get key (groupcache.mainCache (groupcache.grp s))).1.2 = false →
  default ∅ (singleflight.m (groupcache.loader (groupcache.grp s))) !! key = None →
  groupcache.peers (groupcache.grp s) = Some pick →
  pick key (groupcache.env s) = (Some peer, e1) →
  peer (groupcache.mkRequest (groupcache.name (groupcache.grp s)) key)
       (groupcache.mkResponse []) e1 = ((out, None), e2) →
  (∃ s',
      groupcache.Get key s
      = (singleflight.Returns (groupcache.mkByteView (groupcache.Value_ out), None), s')
      ∧ groupcache.mainCache (groupcache.grp s')
        = groupcache.mainCache (groupcache.grp s)
      ∧ groupcache.env s' = e2)
  ∧ (∀ (k : string) (t t' : groupcache.St E) o,
        groupcache.Get k t = (o, t') →
        groupcache.contents (groupcache.mainCache (groupcache.grp t'))
        = groupcache.contents (groupcache.mainCache (groupcache.grp t))
        ∨ ∃ tr bytes,
            groupcache.trace t' = groupcache.trace t ++ tr
            ∧ groupcache.EvOrigin k bytes None ∈ tr
            ∧ o = singleflight.Returns (groupcache.mkByteView bytes, None)
            ∧ groupcache.mainCache (groupcache.grp t')
              = groupcache.add k (groupcache.mkByteView bytes)
                  (groupcache.mainCache (groupcache.grp t))).
Proof.
  intros Hkey Hmiss Hidle Hpeers Hpick Hpeer. split.
  - destruct (Get_miss_path key s Hkey Hmiss Hidle) as [l' Hget].
    unfold groupcache.load_fn in Hget. rewrite Hpeers, Hpick in Hget.
    unfold groupcache.getFromPeer in Hget; simpl in Hget.
    rewrite Hpeer in Hget; simpl in Hget.
    eexists. split; [exact Hget|]. done.
  - intros k t t' o HGet.
    destruct (Get_cases k t o t' HGet)
      as [(_ & _ & ->)|[(v & c' & Hhit & _ & <- & _)|[(_ & -> & _)
         |[(req & out' & _ & -> & _)|(pre & bytes & oerr & _ & Htr & Hres)]]]];
      [by left|left; by apply (get_hit_contents k _ v)|by left..|].
    destruct oerr as [e|]; destruct Hres as [-> Hc]; [left; by rewrite Hc|].
    right. exists (pre ++ [groupcache.EvOrigin k bytes None]), bytes.
    split_and!; [done| |done..].
    apply elem_of_app; right. by left.
Qed.

Lemma Get_peer_value_returned_not_stored_witness :
  let s := scores.start (Some (scores.always scores.serving_peer)) in
  (∃ s',
      groupcache.Get "Tom" s
      = (singleflight.Returns
           (groupcache.mkByteView
              (groupcache.Value_ (groupcache.mkResponse (list_byte_of_string "630"))),
            None), s')
      ∧ groupcache.mainCache (groupcache.grp s')
        = groupcache.mainCache (groupcache.grp s)
      ∧ groupcache.env s' = 2%nat)
  ∧ (∀ (k : string) (t t' : groupcache.St nat) o,
        groupcache.Get k t = (o, t') →
        groupcache.contents (groupcache.mainCache (groupcache.grp t'))
        = groupcache.contents (groupcache.mainCache (groupcache.grp t))
        ∨ ∃ tr bytes,
            groupcache.trace t' = groupcache.trace t ++ tr
            ∧ groupcache.EvOrigin k bytes None ∈ tr
            ∧ o = singleflight.Returns (groupcache.mkByteView bytes, None)
            ∧ groupcache.mainCache (groupcache.grp t')
              = groupcache.add k (groupcache.mkByteView bytes)
                  (groupcache.mainCache (groupcache.grp t))).
Proof.
  exact (Get_peer_value_returned_not_stored "Tom"
           (scores.start (Some (scores.always scores.serving_peer)))
           (scores.always scores.serving_peer) scores.serving_peer 1%nat 2%nat
           (groupcache.mkResponse (list_byte_of_string "630"))
           ltac:(done) eq_refl eq_refl eq_refl eq_refl eq_refl).
Defined.

(** C6: in every call of [Get] in which the origin is asked and answers with
    an error, [Get] returns exactly that error, with the zero value, and the
    store is left as it was; the origin is asked for the key of the call. *)
Theorem Get_origin_error_returned_nothing_stored {E : Type}
    (key : string) (s s' : groupcache.St E)
    (o : singleflight.outcome (groupcache.ByteView * option error))
    (tr : list groupcache.event) (k : string) (bytes : list byte) (e : error) :
  groupcache.Get key s = (o, s') →
  groupcache.trace s' = groupcache.trace s ++ tr →
  groupcache.EvOrigin k bytes (Some e) ∈ tr →
  o = singleflight.Returns (groupcache.mkByteView [], Some e)
  ∧ groupcache.mainCache (groupcache.grp s') = groupcache.mainCache (groupcache.grp s)
  ∧ k = key.
Proof.
  intros HGet Htr Hin.
  destruct (Get_cases key s o s' HGet)
    as [(_ & _ & ->)|[(v & c' & _ & _ & _ & Htr')|[(_ & _ & Htr')
       |[(req & out' & _ & _ & Htr')|(pre & bytes' & oerr & Hpre & Htr' & Hres)]]]].
  - rewrite <-(app_nil_r (groupcache.trace s)) in Htr at 1.
    apply app_inv_head in Htr as <-. by apply elem_of_nil in Hin.
  - rewrite Htr' in Htr. rewrite <-(app_nil_r (groupcache.trace s)) in Htr at 1.
    apply app_inv_head in Htr as <-. by apply elem_of_nil in Hin.
  - rewrite Htr' in Htr. rewrite <-(app_nil_r (groupcache.trace s)) in Htr at 1.
    apply app_inv_head in Htr as <-. by apply elem_of_nil in Hin.
  - rewrite Htr' in Htr. apply app_inv_head in Htr as <-.
    apply list_elem_of_In in Hin; simpl in Hin; intuition discriminate.
  - rewrite Htr' in Htr. apply app_inv_head in Htr as <-.
    apply elem_of_app in Hin as [Hin|Hin].
    + destruct Hpre as [->|[->|(req & out' & perr & ->)]];
        apply list_elem_of_In in Hin; simpl in Hin; intuition discriminate.
    + apply list_elem_of_singleton in Hin. simplify_eq/=.
      destruct Hres as [-> ->]. done.
Qed.

Lemma Get_origin_error_returned_nothing_stored_witness :
  let s := scores.start None in
  let s' := groupcache.mkSt
              (groupcache.set_loader (singleflight.mkGroup (Some ∅)) (scores.group None))
              1%nat [groupcache.EvOrigin "missing" [] (Some "missing is not exist")] in
  groupcache.Get "missing" s
  = (singleflight.Returns (groupcache.mkByteView [], Some "missing is not exist"), s')
  ∧ singleflight.Returns (groupcache.mkByteView [], Some "missing is not exist")
    = singleflight.Returns (groupcache.mkByteView [], Some "missing is not exist")
  ∧ groupcache.mainCache (groupcache.grp s') = groupcache.mainCache (groupcache.grp s)
  ∧ "missing" = "missing".
Proof.
  assert (groupcache.Get "missing" (scores.start None)
          = (singleflight.Returns (groupcache.mkByteView [], Some "missing is not exist"),
             groupcache.mkSt
               (groupcache.set_loader (singleflight.mkGroup (Some ∅)) (scores.group None))
               1%nat [groupcache.EvOrigin "missing" [] (Some "missing is not exist")]))
    as HGet by (vm_compute; reflexivity).
  split; [exact HGet|].
  refine (Get_origin_error_returned_nothing_stored "missing" _ _ _
            [groupcache.EvOrigin "missing" [] (Some "missing is not exist")]
            "missing" [] "missing is not exist" HGet eq_refl _).
  by left.
Defined.

(** ** The registry of groups *)

Lemma NewGroup_allocated {E : Type} name cacheBytes (getter : groupcache.Getter E)
    (r : groupcache.Registry E) p r' :
  groupcache.allocated r →
  groupcache.NewGroup name cacheBytes (Some getter) r = Some (p, r') →
  groupcache.allocated r'.
Proof.
  intros Halloc [= <- <-] n q; simpl. rewrite length_app; simpl.
  destruct (decide (name = n)) as [->|Hne].
  - rewrite lookup_insert_eq. intros [= <-]. lia.
  - rewrite lookup_insert_ne by done. intros ?%Halloc. lia.
Qed.

Lemma NewGroups_allocated {E : Type} calls :
  ∀ r : groupcache.Registry E,
    groupcache.allocated r → groupcache.allocated (groupcache.NewGroups calls r).
Proof.
  induction calls as [|[[n cb] g] calls IH]; intros r Halloc; [done|].
  apply IH. by eapply NewGroup_allocated.
Qed.

Lemma NewGroups_other_names {E : Type} name calls :
  ∀ r : groupcache.Registry E,
    Forall (λ c, c.1.1 ≠ name) calls →
    groupcache.GetGroup name (groupcache.NewGroups calls r) = groupcache.GetGroup name r.
Proof.
  induction calls as [|[[n cb] g] calls IH]; intros r Hnames; [done|].
  apply Forall_cons in Hnames as [Hn Hnames]. simpl in *.
  rewrite IH by done. unfold groupcache.GetGroup; simpl.
  by rewrite lookup_insert_ne.
Qed.

(** C10: when the name is already in the registry, [NewGroup] with a getter
    that is not nil does not fail.  It makes a new group, at an address
    different from the one registered before, with the name, the getter and
    the capacity of the call, an empty store and no peers; the groups made
    before stay as they are; [GetGroup] of the name gives the new group, and
    goes on giving it through every later registration of other names. *)
Theorem NewGroup_replaces_registered_group {E : Type}
    (name : string) (cacheBytes : Z) (getter : groupcache.Getter E)
    (r : groupcache.Registry E) (old : nat) :
  groupcache.allocated r →
  groupcache.GetGroup name r = Some old →
  ∃ p r',
    groupcache.NewGroup name cacheBytes (Some getter) r = Some (p, r')
    ∧ p ≠ old
    ∧ groupcache.heap r' !! p
      = Some (groupcache.mkGroup name getter (groupcache.mkcache None cacheBytes)
                None (singleflight.mkGroup None))
    ∧ (∀ q g, groupcache.heap r !! q = Some g → groupcache.heap r' !! q = Some g)
    ∧ groupcache.GetGroup name r' = Some p
    ∧ (∀ later, Forall (λ c, c.1.1 ≠ name) later →
                groupcache.GetGroup name (groupcache.NewGroups later r') = Some p).
Proof.
  intros Halloc Hold. eexists _, _. split; [reflexivity|]. simpl.
  pose proof (Halloc _ _ Hold) as Hlt.
  split_and!.
  - lia.
  - by rewrite lookup_app_r, Nat.sub_diag.
  - intros q g Hq. by apply lookup_app_l_Some.
  - unfold groupcache.GetGroup; simpl. by rewrite lookup_insert_eq.
  - intros later Hnames. rewrite NewGroups_other_names by done.
    unfold groupcache.GetGroup; simpl. by rewrite lookup_insert_eq.
Qed.

Lemma NewGroup_replaces_registered_group_witness :
  let r := groupcache.NewGroups [("scores", 2048, scores.db)] (groupcache.no_groups nat) in
  groupcache.allocated r
  ∧ groupcache.GetGroup "scores" r = Some 0%nat
  ∧ ∃ p r',
      groupcache.NewGroup "scores" 1024 (Some scores.db) r = Some (p, r')
      ∧ p ≠ 0%nat
      ∧ groupcache.heap r' !! p
        = Some (groupcache.mkGroup "scores" scores.db (groupcache.mkcache None 1024)
                  None (singleflight.mkGroup None))
      ∧ (∀ q g, groupcache.heap r !! q = Some g → groupcache.heap r' !! q = Some g)
      ∧ groupcache.GetGroup "scores" r' = Some p
      ∧ (∀ later, Forall (λ c, c.1.1 ≠ "scores") later →
                  groupcache.GetGroup "scores" (groupcache.NewGroups later r') = Some p).
Proof.
  assert (groupcache.allocated
            (groupcache.NewGroups [("scores", 2048, scores.db)] (groupcache.no_groups nat)))
    as Halloc.
  { apply NewGroups_allocated. intros n p Hnp. simpl in Hnp.
    by apply lookup_empty_Some in Hnp. }
  split; [exact Halloc|]. split; [reflexivity|].
  exact (NewGroup_replaces_registered_group "scores" 1024 scores.db _ 0%nat
           Halloc eq_refl).
Defined.

(** ** Deduplication under interleaving *)

Section interleaving.
Import interleaving.
Context {A W : Type}.
Implicit Types (σ : system A W) (g : goroutine A W) (t c : nat).

Lemma inv_start callers w : inv (start (A:=A) (W:=W) callers w).
Proof.
  constructor; simpl.
  - intros t g (kf & -> & _)%list_lookup_fmap_Some. done.
  - done.
  - done.
  - intros k c Hk. by apply lookup_empty_Some in Hk.
  - intros c t0 k Hc. by rewrite lookup_nil in Hc.
  - intros c cl Hc. by rewrite lookup_nil in Hc.
  - intros x Hx. by apply elem_of_nil in Hx.
Qed.

Lemma runs_of_snoc c x rest :
  filter (λ y : nat * nat * (A * option error), y.1.2 = c) (rest ++ [x])
  = filter (λ y, y.1.2 = c) rest ++ (if decide (x.1.2 = c) then [x] else []).
Proof.
  by rewrite filter_app.
Qed.

Lemma filter_none {X} (P : X → Prop) `{!∀ x, Decision (P x)} (l : list X) :
  (∀ x, x ∈ l → ¬ P x) → filter P l = [].
Proof.
  induction l as [|x l IH]; intros Hall; [done|].
  rewrite filter_cons_False by (apply Hall; by left).
  apply IH. intros y ?. apply Hall. by right.
Qed.

(** Two calls made by two goroutines are two calls. *)
Lemma own_inj σ t1 t2 k1 k2 c :
  own σ t1 k1 c → own σ t2 k2 c → t1 = t2.
Proof. unfold own. congruence. Qed.

(** What a step of another goroutine has to leave alone for the local
    invariant of [t'] to stay. *)
Lemma local_inv_stable σ σ' t' g' :
  local_inv σ t' g' →
  (mu σ = Some t' → mu σ' = Some t') →
  (∀ c x, made σ !! c = Some x → made σ' !! c = Some x) →
  (∀ c, (∃ k, own σ t' k c) ∨ released σ c → calls σ' !! c = calls σ !! c) →
  (∀ c, default ∅ (m σ) !! key g' = Some c → own σ t' (key g') c →
        default ∅ (m σ') !! key g' = Some c) →
  (mu σ = Some t' → default ∅ (m σ') !! key g' = default ∅ (m σ) !! key g') →
  local_inv σ' t' g'.
Proof.
  intros Hloc Hmu Hmade Hcalls Hsome Hnone.
  assert (∀ k c, own σ t' k c → own σ' t' k c) as Hown
    by (intros ??; apply Hmade).
  assert (∀ k c, attached σ k c → attached σ' k c) as Hatt
    by (intros ?? [t0 ?]; exists t0; by apply Hmade).
  assert (∀ c k, own σ t' k c → fresh σ c → fresh σ' c) as Hfresh.
  { intros c k ? Hf. unfold fresh. rewrite Hcalls; eauto. }
  assert (∀ c k, own σ t' k c → filled σ c → filled σ' c) as Hfilled.
  { intros c k ? (v & e & Hf). exists v, e. rewrite Hcalls; eauto. }
  assert (∀ c, released σ c → released σ' c) as Hrel.
  { intros c (v & e & Hf). exists v, e. rewrite Hcalls; [done|]. right. by exists v, e. }
  unfold local_inv in *. destruct (at_ g'); try done.
  all: destruct_and?; try (split_and?; eauto; fail).
  - split; [eauto|]. rewrite Hnone; eauto.
  - match goal with H : ∃ v e, _ ∧ _ |- _ => destruct H as (v & e & Hc & ->) end.
    split; [eauto|]. exists v, e. split; [|done].
    rewrite Hcalls; [done|]. right. by exists v, e.
Qed.

(** The invariant after a step of goroutine [t] that takes it to [p']:
    what is left to show about the step itself. *)
Lemma inv_after_step σ σ' t g p' :
  inv σ → goroutines σ !! t = Some g →
  goroutines σ' = <[t := mkGoroutine (key g) (fn g) p']> (goroutines σ) →
  local_inv σ' t (mkGoroutine (key g) (fn g) p') →
  (∀ t', mu σ' = Some t' →
         (t' = t ∧ holds_lock p') ∨ (t' ≠ t ∧ mu σ = Some t')) →
  (∀ t', t' ≠ t → mu σ = Some t' → mu σ' = Some t') →
  (∀ c x, made σ !! c = Some x → made σ' !! c = Some x) →
  (∀ t' c, t' ≠ t → (∃ k, own σ t' k c) ∨ released σ c →
           calls σ' !! c = calls σ !! c) →
  (∀ t' k' c, t' ≠ t → default ∅ (m σ) !! k' = Some c → own σ t' k' c →
              default ∅ (m σ') !! k' = Some c) →
  (∀ t' k', t' ≠ t → mu σ = Some t' →
            default ∅ (m σ') !! k' = default ∅ (m σ) !! k') →
  length (made σ') = length (calls σ') →
  (∀ k c, default ∅ (m σ') !! k = Some c → attached σ' k c) →
  (∀ c, owner_at (at_ g) c → owner_at p' c) →
  (∀ c t0 k, made σ' !! c = Some (t0, k) →
             made σ !! c = Some (t0, k) ∨ (t0 = t ∧ k = key g ∧ owner_at p' c)) →
  (∀ c cl, calls σ' !! c = Some cl →
           match singleflight.val cl with
           | None => runs_of c σ' = []
           | Some v => ∃ t0 k, made σ' !! c = Some (t0, k)
                               ∧ runs_of c σ' = [(t0, c, (v, singleflight.err cl))]
           end) →
  (∀ x, x ∈ runs σ' → ∃ k, made σ' !! x.1.2 = Some (x.1.1, k)) →
  inv σ'.
Proof.
  intros Hinv Hg Hgs Hself Hlock Hmu Hmade Hcalls Hsome Hnone Hlen Hmap Hown Hnew
    Hruns Hrunsm.
  pose proof (lookup_lt_Some _ _ _ Hg) as Hlt.
  constructor; [| |done|done| |done|done].
  - intros t' g'. rewrite Hgs.
    intros [(<- & <- & _)|(Hne & Hl)]%list_lookup_insert_Some; [done|].
    apply (local_inv_stable σ); eauto using inv_local.
  - intros t' Hmu'. rewrite Hgs.
    destruct (Hlock _ Hmu') as [[-> Hh]|[Hne Hold]].
    + rewrite list_lookup_insert_eq by done. eauto.
    + rewrite list_lookup_insert_ne by done. by apply (inv_mu σ Hinv).
  - intros c t0 k Hc. rewrite Hgs.
    destruct (Hnew _ _ _ Hc) as [Hold|(-> & -> & Hat)].
    + destruct (inv_owner σ Hinv _ _ _ Hold) as (g0 & Hg0 & Hk & Hat).
      destruct (decide (t0 = t)) as [->|Hne].
      * rewrite list_lookup_insert_eq by done. eexists. split; [done|]; simpl.
        rewrite Hg in Hg0. injection Hg0 as <-. eauto.
      * rewrite list_lookup_insert_ne by done. eauto.
    + rewrite list_lookup_insert_eq by done. eexists. split; [done|]; simpl. eauto.
Qed.

(** A call whose counter is down to zero holds its result: only the owner
    lowers the counter, after it has stored what [fn] gave. *)
Lemma zero_released σ k c cl :
  inv σ → attached σ k c → calls σ !! c = Some cl → singleflight.wg cl = 0 →
  released σ c.
Proof.
  intros Hinv [t0 Hmade] Hcl Hwg.
  destruct (inv_owner σ Hinv _ _ _ Hmade) as (g0 & Hg0 & _ & Hat).
  pose proof (inv_local σ Hinv _ _ Hg0) as Hloc. unfold local_inv in Hloc.
  destruct (at_ g0); simpl in Hat; try done; subst; destruct_and?;
    try done;
    try (match goal with H : fresh _ _ |- _ => unfold fresh in H end;
         simplify_eq/=; fail);
    try (match goal with H : filled _ _ |- _ => destruct H as (? & ? & ?) end;
         simplify_eq/=; fail).
  match goal with H : ∃ v e, _ ∧ _ |- _ => destruct H as (v & e & ? & _) end.
  by exists v, e.
Qed.

(** The holder of the mutex after a step of [t]: [t] itself when it is
    between [Lock] and [Unlock], the holder before otherwise. *)
Ltac holder Hinv Hg :=
  let t' := fresh "t'" in
  let Hmu' := fresh "Hmu'" in
  let g' := fresh "g'" in
  let Hg' := fresh "Hg'" in
  let Hh := fresh "Hh" in
  simpl; intros t' Hmu';
  first
    [ discriminate
    | left; split; [congruence|done]
    | right; split; [|done]; intros ->;
      destruct (inv_mu _ Hinv _ Hmu') as (g' & Hg' & Hh);
      rewrite Hg in Hg'; injection Hg' as <-; done ].

Lemma step_inv t σ σ' : inv σ → step t σ = Some σ' → inv σ'.
Proof.
  intros Hinv. unfold step.
  destruct (goroutines σ !! t) as [g|] eqn:Hg; [|done]; simpl.
  pose proof (inv_local σ Hinv t g Hg) as Hme. unfold local_inv in Hme.
  pose proof (inv_made σ Hinv) as Hlen.
  destruct g as [k f p]; simpl in *.
  destruct p as [| |c|c|c| |c|c|c|c|c|c|c|c r]; simpl.
  all: repeat match goal with
       | |- context [match mu ?s with _ => _ end] =>
           destruct (mu s) eqn:Hmu; [done|]
       | |- context [calls ?s !! ?c] =>
           destruct (calls s !! c) as [cl|] eqn:Hcl; [simpl|done]
       | |- context [decide (?x = 0)] => destruct (decide (x = 0)); [|done]
       | |- context [let '(_, _) := ?f ?w in _] => destruct (f w) as [r' w']
       end.
  all: try (intros [= <-]).
  all: try (destruct_and?; eapply (inv_after_step _ _ _ _ _ Hinv Hg); simpl;
      [reflexivity|..]; try (by eauto using inv_made, inv_map);
      try exact (inv_runs σ Hinv); try exact (inv_runs_made σ Hinv);
      try exact (inv_map σ Hinv); try (intros; congruence); try holder Hinv Hg; fail).
  - (* Locked: the test of the map *)
    eapply (inv_after_step _ _ _ _ _ Hinv Hg); simpl;
      [reflexivity|..]; try (by eauto using inv_made, inv_map);
      try exact (inv_runs σ Hinv); try exact (inv_runs_made σ Hinv);
      try exact (inv_map σ Hinv); try (intros; congruence); try holder Hinv Hg.
    + unfold local_inv; simpl.
      destruct (default ∅ (m σ) !! k) as [c|] eqn:Hk; simpl; [|by split].
      split; [done|]. by apply (inv_map σ Hinv).
    + intros t' Hmu'. left. split; [congruence|].
      by destruct (default ∅ (m σ) !! k).
  - (* Waiting: the counter is at zero *)
    eapply (inv_after_step _ _ _ _ _ Hinv Hg); simpl;
      [reflexivity|..]; try (by eauto using inv_made, inv_map);
      try exact (inv_runs σ Hinv); try exact (inv_runs_made σ Hinv);
      try exact (inv_map σ Hinv); try (intros; congruence); try holder Hinv Hg.
    unfold local_inv; simpl. split; [done|]. by apply (zero_released σ k c cl).
    all: fail.
  - (* Woken: the return of a waiter *)
    eapply (inv_after_step _ _ _ _ _ Hinv Hg); simpl;
      [reflexivity|..]; try (by eauto using inv_made, inv_map);
      try exact (inv_runs σ Hinv); try exact (inv_runs_made σ Hinv);
      try exact (inv_map σ Hinv); try (intros; congruence); try holder Hinv Hg.
    unfold local_inv; simpl. destruct Hme as [Hatt (v & e & Hc)].
    split; [done|]. exists v, e. rewrite Hc in Hcl. by injection Hcl as <-.
  - (* Missing: a new call goes into the map *)
    destruct Hme as [Hmu Hk].
    eapply (inv_after_step _ _ _ _ _ Hinv Hg); simpl; [reflexivity|..];
      try holder Hinv Hg.
    + unfold local_inv, own, fresh; simpl. split_and!; [done| | |].
      * by rewrite lookup_app_r, Hlen, Nat.sub_diag by lia.
      * by rewrite lookup_app_r, Nat.sub_diag by lia.
      * by rewrite lookup_insert_eq.
    + done.
    + intros c x ?. by apply lookup_app_l_Some.
    + intros t' c _ Hc. apply lookup_app_l.
      destruct Hc as [[k' Hc]|(v & e & Hc)]; apply lookup_lt_Some in Hc; lia.
    + intros t' k' c _ Hk' _. rewrite lookup_insert_ne; [done|]. congruence.
    + intros; congruence.
    + by rewrite !length_app, Hlen.
    + intros k' c [[<- <-]|[_ Hold]]%lookup_insert_Some.
      * exists t; simpl. by rewrite lookup_app_r, Hlen, Nat.sub_diag by lia.
      * destruct (inv_map σ Hinv _ _ Hold) as [t0 ?]. exists t0; simpl.
        by apply lookup_app_l_Some.
    + done.
    + intros c t0 k0 [?|[Hge Hc]]%lookup_app_Some; [by left|].
      right. apply list_lookup_singleton_Some in Hc as [Hc [= <- <-]].
      split_and!; [done..|]. simpl. lia.
    + intros c cl [Hc|[Hge Hc]]%lookup_app_Some.
      * pose proof (inv_runs σ Hinv _ _ Hc) as Hr.
        destruct (singleflight.val cl); [|done].
        destruct Hr as (t0 & k0 & ? & ?). exists t0, k0.
        split; [by apply lookup_app_l_Some|done].
      * apply list_lookup_singleton_Some in Hc as [Hc <-]; simpl.
        apply filter_none. intros x Hx Hxc.
        destruct (inv_runs_made σ Hinv x Hx) as [k0 Hm%lookup_lt_Some]. lia.
    + intros x Hx. destruct (inv_runs_made σ Hinv x Hx) as [k0 Hm].
      exists k0. by apply lookup_app_l_Some.
  - (* Calling: [fn] runs *)
    destruct Hme as (Hown & Hfresh & Hk).
    unfold fresh in Hfresh. rewrite Hcl in Hfresh. injection Hfresh as ->.
    pose proof (lookup_lt_Some _ _ _ Hcl) as Hc.
    eapply (inv_after_step _ _ _ _ _ Hinv Hg); simpl; [reflexivity|..];
      try done; try holder Hinv Hg.
    + unfold local_inv, filled; simpl. split_and!; [done| |done].
      exists r'.1, r'.2. by rewrite list_lookup_insert_eq.
    + intros t' c' Hne Hc'. apply list_lookup_insert_ne. intros <-.
      destruct Hc' as [[k' Hc']|(v & e & Hc')].
      * by destruct (own_inj σ t t' k k' c).
      * by rewrite Hcl in Hc'.
    + by rewrite length_insert.
    + by exact (inv_map σ Hinv).
    + intros c0 t0 k0 ?. by left.
    + intros c0 cl0 [(<- & <- & _)|[Hne Hc0]]%list_lookup_insert_Some; simpl.
      * exists t, k. split; [done|]. unfold runs_of; simpl.
        rewrite runs_of_snoc; simpl. rewrite decide_True by done.
        pose proof (inv_runs σ Hinv _ _ Hcl) as Hr; simpl in Hr.
        unfold runs_of in Hr. rewrite Hr. by destruct r'.
      * pose proof (inv_runs σ Hinv _ _ Hc0) as Hr.
        unfold runs_of in *; simpl. rewrite runs_of_snoc; simpl.
        rewrite decide_False by done. by rewrite app_nil_r.
    + intros x [Hx|Hx%list_elem_of_singleton]%elem_of_app.
      * exact (inv_runs_made σ Hinv x Hx).
      * subst x. by exists k.
  - (* Called: the waiters are released *)
    destruct Hme as (Hown & (v & e & Hfilled) & Hk).
    rewrite Hcl in Hfilled. injection Hfilled as ->; simpl.
    pose proof (lookup_lt_Some _ _ _ Hcl) as Hc.
    eapply (inv_after_step _ _ _ _ _ Hinv Hg); simpl; [reflexivity|..];
      try done; try holder Hinv Hg.
    + unfold local_inv, released; simpl. split_and!; [done| |done].
      exists v, e. by rewrite list_lookup_insert_eq.
    + intros t' c' Hne Hc'. apply list_lookup_insert_ne. intros <-.
      destruct Hc' as [[k' Hc']|(v' & e' & Hc')].
      * by destruct (own_inj σ t t' k k' c).
      * by rewrite Hcl in Hc'.
    + by rewrite length_insert.
    + by exact (inv_map σ Hinv).
    + intros c0 t0 k0 ?. by left.
    + intros c0 cl0 [(<- & <- & _)|[Hne Hc0]]%list_lookup_insert_Some; simpl.
      * exact (inv_runs σ Hinv _ _ Hcl).
      * exact (inv_runs σ Hinv _ _ Hc0).
    + exact (inv_runs_made σ Hinv).
  - (* Deleting: the key leaves the map *)
    destruct Hme as (Hmu & Hown & Hrel & Hk).
    eapply (inv_after_step _ _ _ _ _ Hinv Hg); simpl; [reflexivity|..];
      try done; try holder Hinv Hg.
    + intros t' k' c' Hne Hk' Hown'. rewrite lookup_delete_ne; [done|].
      intros <-. rewrite Hk in Hk'. injection Hk' as <-.
      by destruct (own_inj σ t t' k k c).
    + intros; congruence.
    + intros k' c' [_ Hold]%lookup_delete_Some. exact (inv_map σ Hinv _ _ Hold).
    + intros c0 t0 k0 ?. by left.
    + exact (inv_runs σ Hinv).
    + exact (inv_runs_made σ Hinv).
  - (* Leaving: the return of the owner *)
    destruct Hme as (Hown & v & e & Hc).
    eapply (inv_after_step _ _ _ _ _ Hinv Hg); simpl; [reflexivity|..];
      try done; try holder Hinv Hg.
    + unfold local_inv; simpl. split; [by exists t|].
      exists v, e. rewrite Hc in Hcl. by injection Hcl as <-.
    + exact (inv_map σ Hinv).
    + intros c0 t0 k0 ?. by left.
    + exact (inv_runs σ Hinv).
    + exact (inv_runs_made σ Hinv).
Qed.
Lemma reachable_inv callers w σ : reachable callers w σ → inv σ.
Proof.
  unfold reachable. revert σ.
  apply (rtc_ind_r (λ σ, inv σ)); [apply inv_start|].
  intros σ1 σ2 _ [t Hstep] IH. by eapply step_inv.
Qed.

(** A schedule that runs to its end is a run of the system. *)
Lemma run_steps schedule :
  ∀ σ σ', run schedule σ = Some σ' → rtc steps_to σ σ'.
Proof.
  induction schedule as [|t schedule IH]; intros σ σ'; simpl.
  - intros [= <-]. constructor.
  - destruct (step t σ) as [σ1|] eqn:Hstep; [simpl|done].
    intros Hrun. eapply rtc_l; [by exists t|by apply IH].
Qed.

Lemma filter_all {X} (P : X → Prop) `{!∀ x, Decision (P x)} (l : list X) :
  (∀ x, x ∈ l → P x) → filter P l = l.
Proof.
  induction l as [|x l IH]; intros Hall; [done|].
  rewrite filter_cons_True by (apply Hall; by left).
  f_equal. apply IH. intros y ?. apply Hall. by right.
Qed.

(** At most one call per key is in the map. *)
Lemma inv_single_flight σ t1 t2 g1 g2 c1 c2 :
  inv σ →
  goroutines σ !! t1 = Some g1 → goroutines σ !! t2 = Some g2 →
  key g1 = key g2 →
  in_flight (at_ g1) = Some c1 → in_flight (at_ g2) = Some c2 →
  t1 = t2.
Proof.
  intros Hinv Hg1 Hg2 Hkey Hf1 Hf2.
  pose proof (inv_local σ Hinv _ _ Hg1) as H1.
  pose proof (inv_local σ Hinv _ _ Hg2) as H2.
  unfold local_inv in *.
  assert (own σ t1 (key g1) c1 ∧ default ∅ (m σ) !! key g1 = Some c1) as [Ho1 Hm1]
    by (destruct (at_ g1); simplify_eq/=; tauto).
  assert (own σ t2 (key g2) c2 ∧ default ∅ (m σ) !! key g2 = Some c2) as [Ho2 Hm2]
    by (destruct (at_ g2); simplify_eq/=; tauto).
  rewrite Hkey, Hm2 in Hm1. injection Hm1 as <-.
  by eapply own_inj.
Qed.

(** [fn] has run at most once for a call. *)
Lemma inv_runs_at_most_once σ c : inv σ → (length (runs_of c σ) ≤ 1)%nat.
Proof.
  intros Hinv. destruct (calls σ !! c) as [cl|] eqn:Hcl.
  - pose proof (inv_runs σ Hinv _ _ Hcl) as Hr.
    destruct (singleflight.val cl).
    + destruct Hr as (? & ? & _ & ->). done.
    + rewrite Hr. simpl. lia.
  - unfold runs_of. rewrite filter_none; [simpl; lia|].
    intros x Hx Hxc. destruct (inv_runs_made σ Hinv x Hx) as [k Hm%lookup_lt_Some].
    apply lookup_ge_None in Hcl. rewrite (inv_made σ Hinv) in Hm. lia.
Qed.

(** A goroutine that has returned has the result of the one run of its
    call, and that call was made for its key. *)
Lemma inv_finished σ t g c r :
  inv σ → goroutines σ !! t = Some g → at_ g = Finished c r →
  ∃ t0 g0 v e,
    runs_of c σ = [(t0, c, (v, e))] ∧ r = (Some v, e)
    ∧ goroutines σ !! t0 = Some g0 ∧ key g0 = key g ∧ owner_at (at_ g0) c.
Proof.
  intros Hinv Hg Hat.
  pose proof (inv_local σ Hinv _ _ Hg) as Hloc. unfold local_inv in Hloc.
  rewrite Hat in Hloc. destruct Hloc as [[t0 Hmade] (v & e & Hcl & ->)].
  destruct (inv_owner σ Hinv _ _ _ Hmade) as (g0 & Hg0 & Hk & Hown).
  pose proof (inv_runs σ Hinv _ _ Hcl) as (t0' & k' & Hmade' & Hruns); simpl in *.
  rewrite Hmade in Hmade'. injection Hmade' as <- <-.
  by exists t0, g0, v, e.
Qed.
(** *** Every run comes to its end *)

Lemma sum_list_insert {X} (f : X → nat) (l : list X) (i : nat) (x y : X) :
  l !! i = Some x →
  (sum_list (f <$> <[i := y]> l) + f x = sum_list (f <$> l) + f y)%nat.
Proof.
  revert i. induction l as [|z l IH]; intros [|i] Hi; simplify_eq/=; [lia|].
  specialize (IH _ Hi). lia.
Qed.

(** A step takes the goroutine that makes it closer to its return. *)
Lemma step_remaining t σ σ' :
  step t σ = Some σ' → (remaining σ' < remaining σ)%nat.
Proof.
  unfold step, remaining.
  destruct (goroutines σ !! t) as [g|] eqn:Hg; [simpl|done].
  assert (∀ p' σ0, goroutines σ0 = goroutines σ → (rank p' < rank (at_ g))%nat →
            (sum_list (rank ∘ at_ <$> goroutines (move t g p' σ0))
             < sum_list (rank ∘ at_ <$> goroutines σ))%nat) as Hmove.
  { intros p' σ0 Hgs Hrank. simpl. rewrite Hgs.
    pose proof (sum_list_insert (rank ∘ at_) _ _ _
                  (mkGoroutine (key g) (fn g) p') Hg) as Hsum.
    simpl in Hsum. lia. }
  destruct (at_ g) eqn:Hat;
    repeat match goal with
      | |- context [match mu ?s with _ => _ end] => destruct (mu s); [done|]
      | |- context [calls ?s !! ?c] => destruct (calls s !! c); [simpl|done]
      | |- context [decide (?x = 0)] => destruct (decide (x = 0)); [|done]
      | |- context [let '(_, _) := ?f ?w in _] => destruct (f w)
      end;
    try done; intros [= <-]; apply Hmove; try done; simpl; try lia.
  destruct (default ∅ (m σ) !! key g); simpl; lia.
Qed.

(** Until every goroutine has returned, one of them can make a step: the
    holder of the mutex when it is held, and otherwise a goroutine that is
    not waiting, or the owner of the call a waiter waits for. *)
Lemma inv_progress σ :
  inv σ → ¬ all_finished σ → ∃ t σ', step t σ = Some σ'.
Proof.
  intros Hinv Hnot.
  assert (∀ t g, goroutines σ !! t = Some g → holds_lock (at_ g) →
                 ∃ σ', step t σ = Some σ') as Hholder.
  { intros t g Hg Hh. unfold step. rewrite Hg; simpl.
    destruct (at_ g); simpl in Hh; try done; eauto. }
  destruct (mu σ) as [th|] eqn:Hmu.
  { destruct (inv_mu σ Hinv _ Hmu) as (g & Hg & Hh).
    destruct (Hholder _ _ Hg Hh) as [σ' ?]. eauto. }
  apply not_Forall_Exists in Hnot; [|apply _].
  apply Exists_exists in Hnot as (g & Hin & Hunf).
  apply list_elem_of_lookup in Hin as [t Hg].
  pose proof (inv_local σ Hinv _ _ Hg) as Hloc. unfold local_inv in Hloc.
  assert (∀ c, is_Some (calls σ !! c) → at_ g = Woken c ∨ at_ g = Calling c
               ∨ at_ g = Called c ∨ at_ g = Leaving c →
               ∃ σ', step t σ = Some σ') as Hcall.
  { intros c [cl Hcl] Hat. unfold step. rewrite Hg; simpl.
    destruct Hat as [->|[->|[->| ->]]]; rewrite Hcl; simpl; eauto.
    destruct (fn g (world σ)). eauto. }
  destruct (at_ g) as [| |c|c|c| |c|c|c|c|c|c|c|c r] eqn:Hat; simpl in Hunf;
    try done; destruct_and?; try congruence.
  - exists t. unfold step. rewrite Hg; simpl; rewrite Hat; simpl. rewrite Hmu. eauto.
  - (* Waiting *)
    destruct Hloc as [t0 Hmade].
    destruct (inv_owner σ Hinv _ _ _ Hmade) as (g0 & Hg0 & _ & Hown).
    pose proof (inv_local σ Hinv _ _ Hg0) as Hloc0. unfold local_inv in Hloc0.
    assert (∀ v e w, calls σ !! c = Some (singleflight.mkCall w v e) → w = 0 →
                     ∃ σ', step t σ = Some σ') as Hwake.
    { intros v e w Hcl ->. unfold step. rewrite Hg; simpl; rewrite Hat; simpl.
      rewrite Hcl; simpl. eauto. }
    assert (∀ c0, is_Some (calls σ !! c0) →
                  at_ g0 = Calling c0 ∨ at_ g0 = Called c0 →
                  ∃ σ', step t0 σ = Some σ') as Hcall0.
    { intros c0 [cl Hcl] Hat0. unfold step. rewrite Hg0; simpl.
      destruct Hat0 as [->| ->]; rewrite Hcl; simpl; eauto.
      destruct (fn g0 (world σ)). eauto. }
    destruct (at_ g0) eqn:Hat0; simpl in Hown; try done; subst;
      destruct_and?; try congruence.
    + edestruct Hcall0 as [σ' ?]; [|by left|by eauto].
      match goal with H : fresh _ _ |- _ => by rewrite H end.
    + edestruct Hcall0 as [σ' ?]; [|by right|by eauto].
      match goal with H : filled _ _ |- _ => destruct H as (? & ? & ->) end. done.
    + match goal with H : released _ _ |- _ => destruct H as (? & ? & ?) end.
      edestruct Hwake as [σ' ?]; eauto.
    + match goal with H : released _ _ |- _ => destruct H as (? & ? & ?) end.
      edestruct Hwake as [σ' ?]; eauto.
    + match goal with H : ∃ v e, _ ∧ _ |- _ => destruct H as (? & ? & ? & _) end.
      edestruct Hwake as [σ' ?]; eauto.
  - (* Woken *)
    match goal with H : released _ _ |- _ => destruct H as (? & ? & Hcl) end.
    edestruct (Hcall c) as [σ' ?]; [by rewrite Hcl|by left|by eauto].
  - match goal with H : fresh _ _ |- _ => rename H into Hcl end.
    edestruct (Hcall c) as [σ' ?]; [by rewrite Hcl|by right; left|by eauto].
  - match goal with H : filled _ _ |- _ => destruct H as (? & ? & Hcl) end.
    edestruct (Hcall c) as [σ' ?]; [by rewrite Hcl|by right; right; left|by eauto].
  - exists t. unfold step. rewrite Hg; simpl; rewrite Hat; simpl. rewrite Hmu. eauto.
  - match goal with H : released _ _ |- _ => destruct H as (? & ? & Hcl) end.
    edestruct (Hcall c) as [σ' ?]; [by rewrite Hcl|by right; right; right|by eauto].
  - exfalso. apply Hunf. by rewrite Hat.
Qed.

(** From every state of a run, the callers can all be brought to their
    return. *)
Lemma inv_completes σ : inv σ → ∃ σ', rtc steps_to σ σ' ∧ all_finished σ'.
Proof.
  remember (remaining σ) as n eqn:Hn. revert σ Hn.
  induction n as [n IH] using lt_wf_ind. intros σ -> Hinv.
  destruct (decide (all_finished σ)) as [Hall|Hnot].
  { exists σ. split; [constructor|done]. }
  destruct (inv_progress σ Hinv Hnot) as (t & σ1 & Hstep).
  destruct (IH (remaining σ1) (step_remaining _ _ _ Hstep) σ1 eq_refl)
    as (σ' & Hrun & Hall); [by eapply step_inv|].
  exists σ'. split; [|done]. eapply rtc_l; [by exists t|done].
Qed.

(** No run is longer than ten statements for each caller. *)
Lemma run_length schedule :
  ∀ σ σ', run schedule σ = Some σ' →
          (length schedule + remaining σ' ≤ remaining σ)%nat.
Proof.
  induction schedule as [|t schedule IH]; intros σ σ'; simpl.
  - intros [= <-]. lia.
  - destruct (step t σ) as [σ1|] eqn:Hstep; [simpl|done].
    intros Hrun%IH. apply step_remaining in Hstep. lia.
Qed.

Lemma remaining_start (callers : list (string * (W → (A * option error) * W))) w :
  remaining (start callers w) = (10 * length callers)%nat.
Proof.
  unfold remaining, start; simpl. induction callers as [|kf callers IH]; [done|].
  rewrite !fmap_cons; simpl. rewrite IH. lia.
Qed.
Lemma run_step t schedule σ σ1 :
  step t σ = Some σ1 → run (t :: schedule) σ = run schedule σ1.
Proof. intros Hstep; simpl. by rewrite Hstep. Qed.

(** A caller that finds the mutex free and no call for its key in the map,
    and runs its ten statements without another goroutine in between,
    returns what [fn] gives on the state it finds, leaves that state as
    [fn] left it, and leaves the mutex free and the map without the key. *)
Lemma solo_run t σ g :
  goroutines σ !! t = Some g → at_ g = Enter →
  mu σ = None → default ∅ (m σ) !! key g = None →
  ∃ σ',
    run (replicate 10 t) σ = Some σ'
    ∧ goroutines σ'
      = <[t := mkGoroutine (key g) (fn g)
                 (Finished (length (calls σ))
                    (Some (fn g (world σ)).1.1, (fn g (world σ)).1.2))]>
          (goroutines σ)
    ∧ world σ' = (fn g (world σ)).2
    ∧ mu σ' = None
    ∧ default ∅ (m σ') !! key g = None
    ∧ runs σ' = runs σ ++ [(t, length (calls σ), (fn g (world σ)).1)].
Proof.
  intros Hg Hat Hmu Hk. pose proof (lookup_lt_Some _ _ _ Hg) as Hlt.
  destruct g as [k f p]; simpl in Hat, Hk; cbn [key fn at_]; subst p.
  destruct (f (world σ)) as [r w'] eqn:Hf.
  assert (∀ (l : list (goroutine A W)) g1 g2, (t < length l)%nat →
            <[t := g2]> (<[t := g1]> l) = <[t := g2]> l) as Hii
    by (intros; by rewrite list_insert_insert_eq).
  assert (∀ (l : list (goroutine A W)) g1, (t < length l)%nat →
            <[t := g1]> l !! t = Some g1) as Hil
    by (intros; by rewrite list_lookup_insert_eq).
  change (replicate 10 t) with [t; t; t; t; t; t; t; t; t; t].
  eexists. split.
  (* Enter, Locked, Missing, Registered *)
  erewrite run_step;
    [|unfold step; rewrite Hg; cbn; rewrite Hmu; reflexivity].
  erewrite run_step;
    [|unfold step; cbn; rewrite Hil by done; cbn; rewrite Hk; reflexivity].
  erewrite run_step;
    [|unfold step; cbn; rewrite Hil by (by rewrite length_insert); reflexivity].
  erewrite run_step;
    [|unfold step; cbn; rewrite Hil by (by rewrite !length_insert); reflexivity].
  (* Calling *)
  erewrite run_step;
    [|unfold step; cbn; rewrite Hil by (by rewrite !length_insert); cbn;
      rewrite lookup_app_r, Nat.sub_diag by done; cbn; rewrite Hf; reflexivity].
  (* Called *)
  erewrite run_step;
    [|unfold step; cbn; rewrite Hil by (by rewrite !length_insert); cbn;
      rewrite list_lookup_insert_eq by (rewrite length_app; simpl; lia);
      reflexivity].
  (* Signalled, Deleting, Deleted, Leaving *)
  erewrite run_step;
    [|unfold step; cbn; rewrite Hil by (by rewrite !length_insert); reflexivity].
  erewrite run_step;
    [|unfold step; cbn; rewrite Hil by (by rewrite !length_insert); reflexivity].
  erewrite run_step;
    [|unfold step; cbn; rewrite Hil by (by rewrite !length_insert); reflexivity].
  erewrite run_step;
    [|unfold step; cbn; rewrite Hil by (by rewrite !length_insert); cbn;
      rewrite list_lookup_insert_eq
        by (rewrite length_insert, length_app; simpl; lia);
      reflexivity].
  reflexivity. cbn.
  split_and!; [|done|done| |done].
  - by rewrite !Hii by (by rewrite ?length_insert).
  - apply lookup_delete_eq.
Qed.
End interleaving.

(** Under every interleaving of the callers of [Do]: two goroutines with
    the same key never have a call in the map at the same time; [fn] runs at
    most once for a call; a caller that has returned has the result of the
    one run of its call, which was made by a caller with its key; and when
    all the callers were served by one call, [fn] ran once in all and every
    caller has that result. *)
Theorem Do_runs_fn_once_per_flight {A W : Type}
    (callers : list (string * (W → (A * option error) * W))) (w : W)
    (σ : interleaving.system A W) :
  interleaving.reachable callers w σ →
  (∀ t1 t2 g1 g2 c1 c2,
      interleaving.goroutines σ !! t1 = Some g1 →
      interleaving.goroutines σ !! t2 = Some g2 →
      interleaving.key g1 = interleaving.key g2 →
      interleaving.in_flight (interleaving.at_ g1) = Some c1 →
      interleaving.in_flight (interleaving.at_ g2) = Some c2 →
      t1 = t2)
  ∧ (∀ c, (length (interleaving.runs_of c σ) ≤ 1)%nat)
  ∧ (∀ t g c r,
        interleaving.goroutines σ !! t = Some g →
        interleaving.at_ g = interleaving.Finished c r →
        ∃ t0 g0 v e,
          interleaving.runs_of c σ = [(t0, c, (v, e))] ∧ r = (Some v, e)
          ∧ interleaving.goroutines σ !! t0 = Some g0
          ∧ interleaving.key g0 = interleaving.key g)
  ∧ (∀ c,
        interleaving.goroutines σ ≠ [] →
        (∀ t g, interleaving.goroutines σ !! t = Some g →
                ∃ r, interleaving.at_ g = interleaving.Finished c r) →
        ∃ t0 v e,
          interleaving.runs σ = [(t0, c, (v, e))]
          ∧ ∀ t g, interleaving.goroutines σ !! t = Some g →
                   interleaving.at_ g = interleaving.Finished c (Some v, e)).
Proof.
  intros Hinv%reachable_inv. split_and!.
  - intros. by eapply inv_single_flight.
  - intros c. by apply inv_runs_at_most_once.
  - intros t g c r Hg Hat.
    destruct (inv_finished σ t g c r Hinv Hg Hat) as (t0 & g0 & v & e & ?).
    exists t0, g0, v, e. tauto.
  - intros c Hne Hall.
    destruct (interleaving.goroutines σ !! 0%nat) as [g1|] eqn:Hg1; last first.
    { apply lookup_ge_None in Hg1. destruct (interleaving.goroutines σ); [done|].
      simpl in Hg1. lia. }
    destruct (Hall _ _ Hg1) as [r1 Hat1].
    destruct (inv_finished σ _ _ _ _ Hinv Hg1 Hat1)
      as (t0 & g0 & v & e & Hruns & -> & _).
    exists t0, v, e. split.
    + rewrite <-Hruns. symmetry. apply filter_all. intros x Hx.
      destruct (interleaving.inv_runs_made σ Hinv x Hx) as [k Hmade].
      destruct (interleaving.inv_owner σ Hinv _ _ _ Hmade) as (gx & Hgx & _ & Hown).
      destruct (Hall _ _ Hgx) as [rx Hatx]. rewrite Hatx in Hown. done.
    + intros t g Hg. destruct (Hall _ _ Hg) as [r Hat].
      destruct (inv_finished σ _ _ _ _ Hinv Hg Hat)
        as (t0' & g0' & v' & e' & Hruns' & -> & _).
      rewrite Hruns in Hruns'. by injection Hruns' as _ <- <-.
Qed.
